(** * hc11_functions.dataloaders: a shallow embedding and its properties

    The Python module [hc11_functions/dataloaders.py] defines two lazy
    sequences over a directory of CRCNS hc-11 recordings:

    - [Tarloader] (the session index): lists the archive directory and the
      export directory, recovers the session names, and on access extracts
      the archives of a session if needed and builds a [Dataloader];
    - [Dataloader] (the group index): counts the recording groups of one
      extracted session and on access returns the table of one group,
      either parsed from the raw files or read back from a memoized CSV.

    The embedding follows the source line by line.  Python strings are
    [string] (bytes; file names are taken to be ASCII), Python integers
    are [Z], exceptions are values of [exn], and every function that
    touches the disk is a state transformer over a [World]: the directory
    tree plus the ordered trace of the calls made to the external
    libraries (tarfile, kkpandas, pandas).  The libraries themselves are
    not part of the repository; they enter through the class
    [Externals]. *)

From Stdlib Require Import ZArith List Bool Ascii String Lia.
From Stdlib Require Import DecimalString Sorted Permutation.
From Stdlib Require Import OrderedTypeEx Finite.
Import ListNotations.

Set Implicit Arguments.

Local Open Scope string_scope.
Local Open Scope Z_scope.

(* ================================================================== *)
(** ** Exceptions and results *)

Module Py.

(** The exceptions the module can raise, by Python class.  The three
    about paths are the [OSError]s of the directory tree; [LibraryError]
    carries what an external library reported. *)
Inductive exn : Type :=
| AssertionError (msg : string)
| IndexError (msg : string)
| ValueError (msg : string)
| FileNotFoundError (path : string)
| NotADirectoryError (path : string)
| IsADirectoryError (path : string)
| LibraryError (library msg : string).

Inductive result (A : Type) : Type :=
| Ok (a : A)
| Raise (e : exn).

Arguments Ok {A} a.
Arguments Raise {A} e.

Definition rbind {A B} (r : result A) (k : A -> result B) : result B :=
  match r with
  | Ok a => k a
  | Raise e => Raise e
  end.

Definition rmap {A B} (f : A -> B) (r : result A) : result B :=
  rbind r (fun a => Ok (f a)).

Definition is_ok {A} (r : result A) : bool :=
  match r with Ok _ => true | Raise _ => false end.

(** [[g(x) for x in l]] where [g] may raise: the first failure wins. *)
Fixpoint map_result {A B} (g : A -> result B) (l : list A) : result (list B) :=
  match l with
  | [] => Ok []
  | x :: t => rbind (g x) (fun y => rbind (map_result g t) (fun ys => Ok (y :: ys)))
  end.

(** [l[i]] on a Python list: negative positions count from the end. *)
Definition list_getitem {A} (l : list A) (i : Z) : result A :=
  let n := Z.of_nat (List.length l) in
  let j := if i <? 0 then i + n else i in
  if (j <? 0) || (n <=? j) then Raise (IndexError "list index out of range")
  else match nth_error l (Z.to_nat j) with
       | Some a => Ok a
       | None => Raise (IndexError "list index out of range")
       end.

(** [str(n)] for an integer. *)
Definition str_of_int (n : Z) : string := NilZero.string_of_int (Z.to_int n).

End Py.
Export Py.

(* ================================================================== *)
(** ** String operations of the standard library used by the module *)

Module Str.

Definition code (c : ascii) : N := N_of_ascii c.

Definition in_range (lo hi : N) (c : ascii) : bool :=
  (N.leb lo (code c)) && (N.leb (code c) hi).

Definition is_digit (c : ascii) : bool := in_range 48 57 c.
Definition is_upper (c : ascii) : bool := in_range 65 90 c.
Definition is_lower (c : ascii) : bool := in_range 97 122 c.
Definition is_alpha (c : ascii) : bool := is_lower c || is_upper c.

(** The white space that [int] strips from an ASCII string: tab, line
    feed, vertical tab, form feed, carriage return and space. *)
Definition is_space (c : ascii) : bool := in_range 9 13 c || in_range 32 32 c.

(** [starts_with p s]: [s.startswith(p)], with the rest of [s]. *)
Fixpoint strip_prefix (p s : string) : option string :=
  match p with
  | EmptyString => Some s
  | String a p' =>
      match s with
      | EmptyString => None
      | String b s' => if Ascii.eqb a b then strip_prefix p' s' else None
      end
  end.

Definition starts_with (p s : string) : bool :=
  match strip_prefix p s with Some _ => true | None => false end.

Fixpoint ends_with_char (c : ascii) (s : string) : bool :=
  match s with
  | EmptyString => false
  | String a EmptyString => Ascii.eqb a c
  | String _ s' => ends_with_char c s'
  end.

(** [s.replace(old, '')]: every occurrence of [old] is removed, scanning
    from the left without overlap.  [skip] counts the characters of the
    occurrence under the cursor that are still to be dropped.  An empty
    [old] leaves the string as it is. *)
Fixpoint remove_from (old : string) (skip : nat) (s : string) : string :=
  match s with
  | EmptyString => EmptyString
  | String c s' =>
      match skip with
      | S k => remove_from old k s'
      | O =>
          if starts_with old s
          then match String.length old with
               | O => String c (remove_from old O s')
               | S k => remove_from old k s'
               end
          else String c (remove_from old O s')
      end
  end.

Definition remove_all (old s : string) : string := remove_from old O s.

(** [s.split(sep)] for a one-character separator. *)
Fixpoint split_on (sep : ascii) (s : string) : list string :=
  match s with
  | EmptyString => [EmptyString]
  | String c s' =>
      if Ascii.eqb c sep then EmptyString :: split_on sep s'
      else match split_on sep s' with
           | [] => [String c EmptyString]
           | w :: ws => String c w :: ws
           end
  end.

(** [int(s)]: surrounding white space, an optional sign, then decimal
    digits that may be grouped by single underscores. *)
Fixpoint digits_value (acc : Z) (after_digit : bool) (l : list ascii) : option Z :=
  match l with
  | [] => if after_digit then Some acc else None
  | c :: t =>
      if is_digit c
      then digits_value (10 * acc + (Z.of_N (code c) - 48)) true t
      else if Ascii.eqb c "_" && after_digit then digits_value acc false t
      else None
  end.

Fixpoint drop_space (l : list ascii) : list ascii :=
  match l with
  | c :: t => if is_space c then drop_space t else l
  | [] => []
  end.

Definition strip_space (l : list ascii) : list ascii :=
  rev (drop_space (rev (drop_space l))).

Definition signed_value (l : list ascii) : option Z :=
  match l with
  | "-"%char :: t => option_map Z.opp (digits_value 0 false t)
  | "+"%char :: t => digits_value 0 false t
  | _ => digits_value 0 false l
  end.

Definition py_int (s : string) : result Z :=
  match signed_value (strip_space (list_ascii_of_string s)) with
  | Some z => Ok z
  | None => Raise (ValueError ("invalid literal for int() with base 10: '" ++ s ++ "'"))
  end.

End Str.

(* ================================================================== *)
(** ** Regular expressions: what [re.search] decides *)

Module Re.

Inductive regex : Type :=
| Void
| Eps
| Class (p : ascii -> bool)
| Cat (r1 r2 : regex)
| Alt (r1 r2 : regex)
| Star (r : regex).

Definition Plus (r : regex) : regex := Cat r (Star r).
Definition Opt (r : regex) : regex := Alt r Eps.
Definition Chr (c : ascii) : regex := Class (Ascii.eqb c).

Fixpoint Lit (s : string) : regex :=
  match s with
  | EmptyString => Eps
  | String c s' => Cat (Chr c) (Lit s')
  end.

(** [.] matches every character but the line feed. *)
Definition Dot : regex := Class (fun c => negb (Ascii.eqb c "010"%char)).
Definition Alpha : regex := Class Str.is_alpha.       (* [a-zA-Z] *)
Definition Digit : regex := Class Str.is_digit.       (* \d *)

(** The words of a regular expression. *)
Inductive matches : regex -> list ascii -> Prop :=
| m_eps : matches Eps []
| m_class p c : p c = true -> matches (Class p) [c]
| m_cat r1 r2 u v : matches r1 u -> matches r2 v -> matches (Cat r1 r2) (u ++ v)
| m_alt_l r1 r2 u : matches r1 u -> matches (Alt r1 r2) u
| m_alt_r r1 r2 u : matches r2 u -> matches (Alt r1 r2) u
| m_star_nil r : matches (Star r) []
| m_star_app r u v : matches r u -> matches (Star r) v -> matches (Star r) (u ++ v).

Fixpoint nullable (r : regex) : bool :=
  match r with
  | Void => false
  | Eps => true
  | Class _ => false
  | Cat r1 r2 => nullable r1 && nullable r2
  | Alt r1 r2 => nullable r1 || nullable r2
  | Star _ => true
  end.

Fixpoint deriv (c : ascii) (r : regex) : regex :=
  match r with
  | Void => Void
  | Eps => Void
  | Class p => if p c then Eps else Void
  | Cat r1 r2 =>
      if nullable r1 then Alt (Cat (deriv c r1) r2) (deriv c r2)
      else Cat (deriv c r1) r2
  | Alt r1 r2 => Alt (deriv c r1) (deriv c r2)
  | Star r1 => Cat (deriv c r1) (Star r1)
  end.

(** Does some prefix of [l] belong to [r]? *)
Fixpoint match_prefix (r : regex) (l : list ascii) : bool :=
  nullable r ||
  match l with
  | [] => false
  | c :: t => match_prefix (deriv c r) t
  end.

Fixpoint search_list (r : regex) (l : list ascii) : bool :=
  match_prefix r l ||
  match l with
  | [] => false
  | _ :: t => search_list r t
  end.

(** [bool(re.search(r, s))]: some substring of [s] belongs to [r]. *)
Definition search (r : regex) (s : string) : bool :=
  search_list r (list_ascii_of_string s).

End Re.

(* ================================================================== *)
(** ** [numpy.unique]: the sorted distinct elements *)

Module Unique.

Section Sorting.

Variable A : Type.
Variable cmp : A -> A -> comparison.

Definition lt (a b : A) : Prop := cmp a b = Lt.
Definition le (a b : A) : Prop := cmp a b <> Gt.

Fixpoint insert (x : A) (l : list A) : list A :=
  match l with
  | [] => [x]
  | y :: t =>
      match cmp x y with
      | Gt => y :: insert x t
      | _ => x :: l
      end
  end.

(** [ar.sort()] *)
Definition sort (l : list A) : list A := fold_right insert [] l.

(** Keep an element when it differs from its successor
    ([mask = ar[1:] != ar[:-1]]). *)
Fixpoint squash (l : list A) : list A :=
  match l with
  | [] => []
  | x :: t =>
      match t with
      | [] => [x]
      | y :: _ =>
          match cmp x y with
          | Eq => squash t
          | _ => x :: squash t
          end
      end
  end.

Definition unique (l : list A) : list A := squash (sort l).

End Sorting.

(** Strings are ordered by character code. *)
Definition unique_str : list string -> list string := unique String.compare.

(** A list of Python integers becomes an array before it is sorted.
    Each integer has the type of the smallest of [int64], [uint64] and
    [object] that holds it, and the array has the common type of its
    elements: signed and unsigned 64-bit integers together make
    [float64], an empty list too. *)
Inductive dtype : Type :=
| int64
| uint64
| float64
| object.


Definition dtype_of (z : Z) : dtype :=
  if (- 9223372036854775808 <=? z) && (z <? 9223372036854775808) then int64
  else if (0 <=? z) && (z <? 18446744073709551616) then uint64
  else object.

Definition promote (a b : dtype) : dtype :=
  match a, b with
  | object, _ | _, object => object
  | int64, int64 => int64
  | uint64, uint64 => uint64
  | _, _ => float64
  end.

Fixpoint common (d : dtype) (l : list Z) : dtype :=
  match l with
  | [] => d
  | z :: t => common (promote d (dtype_of z)) t
  end.

Definition array_dtype (l : list Z) : dtype :=
  match l with
  | [] => float64
  | z :: t => common (dtype_of z) t
  end.

(** The double nearest to a natural number, ties to the even
    significand of 53 bits; the doubles met here are integers. *)
Definition round_53 (a : Z) : Z :=
  let bits := Z.log2 a + 1 in
  if bits <=? 53 then a
  else
    let e := bits - 53 in
    let q := Z.shiftr a e in
    let r := a mod 2 ^ e in
    let half := 2 ^ (e - 1) in
    let q' := if (half <? r) || ((r =? half) && Z.odd q) then q + 1 else q in
    Z.shiftl q' e.

Definition float64_of (z : Z) : Z :=
  if z <? 0 then - round_53 (- z) else round_53 z.

(** The value an integer has as an element of an array of type [d]. *)
Definition stored (d : dtype) (z : Z) : Z :=
  match d with
  | float64 => float64_of z
  | _ => z
  end.

(** [np.unique] of a list of Python integers. *)
Definition unique_int (l : list Z) : list Z :=
  unique Z.compare (map (stored (array_dtype l)) l).

Definition str_lt : string -> string -> Prop := lt String.compare.
Definition int_lt : Z -> Z -> Prop := lt Z.compare.

End Unique.

(* ================================================================== *)
(** ** The directory tree: [os.listdir], [os.path], reading and writing *)

Module Os.

Import Str.

(** A file holds bytes, a directory an ordered list of named entries.
    Paths are resolved from the root of the tree, which also stands for
    the working directory; [..] and symbolic links are not modelled. *)
Unset Elimination Schemes.
Inductive node : Type :=
| File (data : string)
| Dir (entries : list (string * node)).
Set Elimination Schemes.

(** [os.path.join(a, b)] of [posixpath]. *)
Definition path_join (a b : string) : string :=
  if starts_with "/" b then b
  else if String.eqb a EmptyString || ends_with_char "/" a then a ++ b
  else a ++ "/" ++ b.

Definition path_join3 (a b c : string) : string := path_join (path_join a b) c.

Definition is_component (c : string) : bool :=
  negb (String.eqb c EmptyString) && negb (String.eqb c ".").

Definition components (p : string) : list string :=
  filter is_component (split_on "/" p).

Fixpoint assoc (k : string) (es : list (string * node)) : option node :=
  match es with
  | [] => None
  | (k', v) :: t => if String.eqb k k' then Some v else assoc k t
  end.

(** Replace the entry [k], which is present. *)
Fixpoint set_entry (k : string) (v : node) (es : list (string * node))
  : list (string * node) :=
  match es with
  | [] => []
  | (k', v') :: t =>
      if String.eqb k k' then (k', v) :: t else (k', v') :: set_entry k v t
  end.

Inductive found : Type :=
| Found (n : node)
| Missing
| NotADir.

Fixpoint walk (cs : list string) (n : node) : found :=
  match cs with
  | [] => Found n
  | c :: cs' =>
      match n with
      | File _ => NotADir
      | Dir es =>
          match assoc c es with
          | Some child => walk cs' child
          | None => Missing
          end
      end
  end.

Definition resolve (root : node) (p : string) : found :=
  if String.eqb p EmptyString then Missing else walk (components p) root.

(** [os.listdir(p)] *)
Definition listdir (root : node) (p : string) : result (list string) :=
  match resolve root p with
  | Found (Dir es) => Ok (map fst es)
  | Found (File _) => Raise (NotADirectoryError p)
  | Missing => Raise (FileNotFoundError p)
  | NotADir => Raise (NotADirectoryError p)
  end.

(** [os.path.isfile(p)] *)
Definition isfile (root : node) (p : string) : bool :=
  match resolve root p with
  | Found (File _) => true
  | _ => false
  end.

(** [open(p, 'rb').read()] *)
Definition read_file (root : node) (p : string) : result string :=
  match resolve root p with
  | Found (File d) => Ok d
  | Found (Dir _) => Raise (IsADirectoryError p)
  | Missing => Raise (FileNotFoundError p)
  | NotADir => Raise (NotADirectoryError p)
  end.

(** Writing along a path: the last component is created or overwritten,
    the directories before it must exist. *)
Fixpoint put (p : string) (cs : list string) (data : string) (n : node)
  : result node :=
  match cs with
  | [] =>
      match n with
      | File _ => Ok (File data)
      | Dir _ => Raise (IsADirectoryError p)
      end
  | c :: cs' =>
      match n with
      | File _ => Raise (NotADirectoryError p)
      | Dir es =>
          match assoc c es with
          | Some child =>
              rbind (put p cs' data child)
                    (fun child' => Ok (Dir (set_entry c child' es)))
          | None =>
              match cs' with
              | [] => Ok (Dir (es ++ [(c, File data)])%list)
              | _ :: _ => Raise (FileNotFoundError p)
              end
          end
      end
  end.

(** [open(p, 'w').write(data)] *)
Definition write_file (root : node) (p : string) (data : string) : result node :=
  if String.eqb p EmptyString then Raise (FileNotFoundError p)
  else put p (components p) data root.

(** A name that can stand for one entry of a directory: not empty, not
    [.], and without a slash.  This is the case of every name that
    [os.listdir] returns. *)
Fixpoint has_char (c : ascii) (s : string) : bool :=
  match s with
  | EmptyString => false
  | String a s' => Ascii.eqb a c || has_char c s'
  end.

Definition entry_name (s : string) : bool :=
  is_component s && negb (has_char "/" s).

End Os.

(* ================================================================== *)
(** ** The external libraries and the world they act on *)

Module Ext.

Export Os.

(** The keyword arguments of [kkio.from_KK] as the module passes them. *)
Record KKOptions : Type := {
  groups_to_get : Z;
  verify_unique_clusters : bool;
  also_get_features : bool;
  also_get_waveforms : bool;
  n_samples : Z;
  n_channels : Z;
  fs : Z;
  load_memoized : bool;
  save_memoized : bool
}.

(** What the module imports and does not define.  Each function is the
    library call with the disk made explicit:
    - [from_KK disk directory options] is [kkio.from_KK(directory, ...)];
    - [to_csv] is the text [DataFrame.to_csv] writes, [read_csv] is
      [pd.read_csv(..., index_col=0)] on the text of a file;
    - [loadmat] is [mat73.loadmat] on the bytes of a file;
    - [tar_open] is [tarfile.open(..., 'r:gz')] on the bytes of a file and
      [extractall archive dest disk] is [TarFile.extractall(dest)], which
      returns the disk it leaves behind even when it raises. *)
Class Externals : Type := {
  Table : Type;
  Metadata : Type;
  Archive : Type;
  from_KK : node -> string -> KKOptions -> result Table;
  to_csv : Table -> string;
  read_csv : string -> result Table;
  loadmat : string -> result Metadata;
  tar_open : string -> result Archive;
  extractall : Archive -> string -> node -> result unit * node
}.

(** The calls made to the external libraries, in order. *)
Inductive call : Type :=
| TarOpen (path : string)
| TarExtractAll (path dest : string)
| MatLoad (path : string)
| KKParse (directory : string) (options : KKOptions)
| CsvRead (path : string)
| CsvWrite (path : string).

Record World : Type := {
  disk : node;
  calls : list call
}.

(** A computation reads and changes the world and returns or raises; the
    world it leaves is kept in both cases. *)
Definition M (A : Type) : Type := World -> result A * World.

Definition ret {A} (a : A) : M A := fun w => (Ok a, w).

Definition raise {A} (e : exn) : M A := fun w => (Raise e, w).

Definition bind {A B} (m : M A) (k : A -> M B) : M B :=
  fun w =>
    match m w with
    | (Ok a, w') => k a w'
    | (Raise e, w') => (Raise e, w')
    end.

Definition lift {A} (r : result A) : M A := fun w => (r, w).

Definition on_disk {A} (f : node -> result A) : M A := fun w => (f (disk w), w).

Definition log (c : call) : M unit :=
  fun w => (Ok tt, {| disk := disk w; calls := (calls w ++ [c])%list |}).

Definition py_assert (b : bool) (msg : string) : M unit :=
  if b then ret tt else raise (AssertionError msg).

Definition when (b : bool) (m : M unit) : M unit := if b then m else ret tt.

(** [extends w w']: the calls of [w'] are those of [w] and then more. *)
Definition extends (w w' : World) : Prop :=
  exists more, calls w' = (calls w ++ more)%list.

End Ext.
Export Ext.

Declare Scope py_scope.
Delimit Scope py_scope with py.
Notation "x <- m ;; k" := (bind m (fun x => k))
  (at level 61, m at next level, right associativity) : py_scope.
Notation "m ;; k" := (bind m (fun _ => k))
  (at level 61, right associativity) : py_scope.

(* ================================================================== *)
(** ** The module [dataloaders] *)

Module Dataloaders.

Import Str Re.
Local Open Scope py_scope.

Local Notation "r1 @ r2" := (Cat r1 r2) (at level 59, right associativity).

(** [r'[a-zA-Z]+_\d+(.tar.gz)?'] *)
Definition session_re : regex :=
  Plus Alpha @ Chr "_" @ Plus Digit @ Opt (Dot @ Lit "tar" @ Dot @ Lit "gz").

(** [r'[a-zA-Z]+_\d+.(clu|res|fet|spk).\d+'] *)
Definition group_re : regex :=
  Plus Alpha @ Chr "_" @ Plus Digit @ Dot @
  Alt (Lit "clu") (Alt (Lit "res") (Alt (Lit "fet") (Lit "spk"))) @
  Dot @ Plus Digit.

(** [f.replace(self.ext, '').replace('_eeg', '').replace('_spk', '')] *)
Definition session_name (ext f : string) : string :=
  remove_all "_spk" (remove_all "_eeg" (remove_all ext f)).

(** [int(f.split('.')[2])] *)
Definition group_number (f : string) : result Z :=
  rbind (list_getitem (split_on "." f) 2) py_int.

(** [[int(f.split('.')[2]) for f in files if re.search(..., f)]] *)
Definition group_numbers (files : list string) : result (list Z) :=
  map_result group_number (filter (search group_re) files).

(** The canonical names of the entries that look like sessions, before
    [np.unique]. *)
Definition candidate_names (ext : string) (files : list string) : list string :=
  map (session_name ext) (filter (search session_re) files).

(** [f'COMPILED_{index+1}.csv'] *)
Definition compiled_name (index : Z) : string :=
  "COMPILED_" ++ str_of_int (index + 1) ++ ".csv".

(** [np.argwhere(np.array(files) == index)]: the positions that hold
    [index], in increasing order. *)
Fixpoint argwhere_from (pos : Z) (files : list string) (index : string) : list Z :=
  match files with
  | [] => []
  | f :: t =>
      if String.eqb f index then pos :: argwhere_from (pos + 1) t index
      else argwhere_from (pos + 1) t index
  end.

Definition argwhere (files : list string) (index : string) : list Z :=
  argwhere_from 0 files index.

(** The index of [Tarloader.__getitem__]: an [int] or a session name. *)
Inductive key : Type :=
| KInt (i : Z)
| KStr (s : string).

(** [if not isinstance(index, int): ...]: a name is replaced by the first
    position that holds it, [idx[0][0]]. *)
Definition position (files : list string) (index : key) : result Z :=
  match index with
  | KInt i => Ok i
  | KStr s =>
      match argwhere files s with
      | [] => Raise (IndexError ("Index " ++ s ++ " not found"))
      | i :: _ => Ok i
      end
  end.

(** Truth value of an optional directory argument: [None] and the empty
    string are false. *)
Definition truthy (d : option string) : bool :=
  match d with
  | Some s => negb (String.eqb s EmptyString)
  | None => false
  end.

Definition path_of (d : option string) : string :=
  match d with
  | Some s => s
  | None => EmptyString
  end.

(** The two directories after [if not tar_directory: ...] and
    [if not export_directory: ...]. *)
Definition filled_tar (tar export : option string) : string :=
  path_of (if truthy tar then tar else export).

Definition filled_export (tar export : option string) : string :=
  path_of (if truthy export then export
           else if truthy tar then tar else export).

(** The arguments of [Tarloader.__init__], with the defaults of the
    signature in [default_args]. *)
Record TarloaderArgs : Type := {
  arg_tar_directory : option string;
  arg_export_directory : option string;
  arg_ext : string;
  arg_eeg : bool;
  arg_spk : bool;
  arg_samples : Z;
  arg_channels : Z;
  arg_use_disk : bool
}.

Definition default_args (tar export : option string) : TarloaderArgs :=
  {| arg_tar_directory := tar;
     arg_export_directory := export;
     arg_ext := ".tar.gz";
     arg_eeg := false;
     arg_spk := true;
     arg_samples := 32;
     arg_channels := -1;
     arg_use_disk := true |}.

Definition msg_no_directory : string :=
  "One of `tar_directory` or `export_directory` must be provided.".

Definition msg_eeg : string := "eeg cannot be exported at the moment.".

Section WithExternals.

Context {E : Externals}.

(** *** class Dataloader *)

Record Dataloader : Type := {
  directory : string;
  novel : Metadata;
  dl_eeg : bool;
  dl_spk : bool;
  dl_samples : Z;
  dl_channels : Z;
  dl_use_disk : bool;
  num_files : nat
}.

Definition Dataloader_init (directory : string) (novel : Metadata)
    (eeg spk : bool) (samples channels : Z) (use_disk : bool) : M Dataloader :=
  files <- on_disk (fun d => listdir d directory) ;;
  nums <- lift (group_numbers files) ;;
  let fnums := Unique.unique_int nums in
  ret {| directory := directory;
         novel := novel;
         dl_eeg := eeg;
         dl_spk := spk;
         dl_samples := samples;
         dl_channels := channels;
         dl_use_disk := use_disk;
         num_files := List.length fnums |}.

Definition compiled_path (self : Dataloader) (index : Z) : string :=
  path_join (directory self) (compiled_name index).

Definition kk_options (self : Dataloader) (index : Z) : KKOptions :=
  {| groups_to_get := index + 1;
     verify_unique_clusters := false;
     also_get_features := true;
     also_get_waveforms := dl_spk self;
     n_samples := dl_samples self;
     n_channels := dl_channels self;
     fs := 20000;
     load_memoized := false;
     save_memoized := false |}.

(** [pd.read_csv(fname, index_col=0)] *)
Definition pd_read_csv (fname : string) : M Table :=
  log (CsvRead fname) ;;
  text <- on_disk (fun d => read_file d fname) ;;
  lift (read_csv text).

(** [data.to_csv(fname)] *)
Definition df_to_csv (data : Table) (fname : string) : M unit :=
  log (CsvWrite fname) ;;
  fun w =>
    match write_file (disk w) fname (to_csv data) with
    | Ok d' => (Ok tt, {| disk := d'; calls := calls w |})
    | Raise e => (Raise e, w)
    end.

(** [kkio.from_KK(self.directory, groups_to_get=index+1, ...)] *)
Definition kkio_from_KK (directory : string) (options : KKOptions) : M Table :=
  log (KKParse directory options) ;;
  on_disk (fun d => from_KK d directory options).

Definition Dataloader_getitem (self : Dataloader) (index : Z)
  : M (Metadata * Table) :=
  let fname := compiled_path self index in
  cached <- on_disk (fun d => Ok (isfile d fname)) ;;
  if dl_use_disk self && cached then
    data <- pd_read_csv fname ;;
    ret (novel self, data)
  else
    data <- kkio_from_KK (directory self) (kk_options self index) ;;
    when (dl_use_disk self) (df_to_csv data fname) ;;
    ret (novel self, data).

Definition Dataloader_len (self : Dataloader) : Z := Z.of_nat (num_files self).

(** The same group index built with another [use_disk]. *)
Definition with_use_disk (b : bool) (self : Dataloader) : Dataloader :=
  {| directory := directory self;
     novel := novel self;
     dl_eeg := dl_eeg self;
     dl_spk := dl_spk self;
     dl_samples := dl_samples self;
     dl_channels := dl_channels self;
     dl_use_disk := b;
     num_files := num_files self |}.

(** *** class Tarloader *)

Record Tarloader : Type := {
  tar_directory : string;
  export_directory : string;
  ext : string;
  eeg : bool;
  spk : bool;
  samples : Z;
  channels : Z;
  use_disk : bool;
  files : list string
}.

Definition Tarloader_init (a : TarloaderArgs) : M Tarloader :=
  py_assert (truthy (arg_tar_directory a) || truthy (arg_export_directory a))
            msg_no_directory ;;
  py_assert (negb (arg_eeg a)) msg_eeg ;;
  let tar := filled_tar (arg_tar_directory a) (arg_export_directory a) in
  let export := filled_export (arg_tar_directory a) (arg_export_directory a) in
  in_tar <- on_disk (fun d => listdir d tar) ;;
  in_export <- on_disk (fun d => listdir d export) ;;
  let files := (in_tar ++ in_export)%list in
  let files := candidate_names (arg_ext a) files in
  let files := Unique.unique_str files in
  ret {| tar_directory := tar;
         export_directory := export;
         ext := arg_ext a;
         eeg := arg_eeg a;
         spk := arg_spk a;
         samples := arg_samples a;
         channels := arg_channels a;
         use_disk := arg_use_disk a;
         files := files |}.

(** [with tarfile.open(path, 'r:gz') as f: f.extractall(dest)] *)
Definition extract_archive (path dest : string) : M unit :=
  log (TarOpen path) ;;
  bytes <- on_disk (fun d => read_file d path) ;;
  archive <- lift (tar_open bytes) ;;
  log (TarExtractAll path dest) ;;
  fun w =>
    let (r, d') := extractall archive dest (disk w) in
    (r, {| disk := d'; calls := calls w |}).

Definition extract (self : Tarloader) (index : Z) : M unit :=
  name <- lift (list_getitem (files self) index) ;;
  present <- on_disk (fun d => listdir d (export_directory self)) ;;
  if existsb (String.eqb name) present then ret tt
  else
    extract_archive
      (path_join (tar_directory self) (name ++ ext self))
      (export_directory self) ;;
    when (eeg self)
      (extract_archive
         (path_join (tar_directory self) (name ++ "_eeg" ++ ext self))
         (export_directory self)) ;;
    when (spk self)
      (extract_archive
         (path_join (tar_directory self) (name ++ "_spk" ++ ext self))
         (export_directory self)).

(** [mat73.loadmat(path)] *)
Definition mat73_loadmat (path : string) : M Metadata :=
  log (MatLoad path) ;;
  bytes <- on_disk (fun d => read_file d path) ;;
  lift (loadmat bytes).

Definition Tarloader_getitem (self : Tarloader) (index : key) : M Dataloader :=
  index <- lift (position (files self) index) ;;
  extract self index ;;
  name <- lift (list_getitem (files self) index) ;;
  novel <- mat73_loadmat
             (path_join3 (export_directory self) name (name ++ "_sessInfo.mat")) ;;
  Dataloader_init (path_join (export_directory self) name) novel
                  (eeg self) (spk self) (samples self) (channels self)
                  (use_disk self).

Definition Tarloader_len (self : Tarloader) : Z :=
  Z.of_nat (List.length (files self)).

End WithExternals.

End Dataloaders.

(* ================================================================== *)
(** ** A small instance of the external libraries, and a disk to run on *)

Module Demo.

Import Str Os Dataloaders.

(** Write a file, creating the directories on the way. *)
Fixpoint install (cs : list string) (data : string) (n : node) : node :=
  match cs with
  | [] => File data
  | c :: cs' =>
      match n with
      | File _ => n
      | Dir es =>
          match assoc c es with
          | Some child => Dir (set_entry c (install cs' data child) es)
          | None => Dir (es ++ [(c, install cs' data (Dir []))])%list
          end
      end
  end.

(** An archive is the text [tar:] followed by the paths of its members,
    separated by commas; a member is extracted as a file that holds its
    own path. *)
Definition demo_tar_open (bytes : string) : result (list string) :=
  match strip_prefix "tar:" bytes with
  | Some members => Ok (split_on "," members)
  | None => Raise (LibraryError "tarfile" "not a gzip file")
  end.

Definition demo_extractall (members : list string) (dest : string) (d : node)
  : result unit * node :=
  (Ok tt,
   fold_left (fun d m => install (components (path_join dest m)) m d) members d).

Definition is_clu_of (group : Z) (f : string) : bool :=
  match split_on "." f with
  | [_; kind; tok] => String.eqb kind "clu" && String.eqb tok (str_of_int group)
  | _ => false
  end.

(** A table is a line of text that names the group, the options that
    shaped it and the cluster file it was read from. *)
Definition demo_from_KK (d : node) (directory : string) (o : KKOptions)
  : result string :=
  rbind (listdir d directory) (fun names =>
    match find (is_clu_of (groups_to_get o)) names with
    | Some f =>
        Ok ("group " ++ str_of_int (groups_to_get o)
            ++ (if also_get_waveforms o then " with " else " without ")
            ++ str_of_int (n_samples o) ++ " samples of "
            ++ str_of_int (n_channels o) ++ " channels from " ++ f)
    | None => Raise (LibraryError "kkpandas" "no such group")
    end).

#[export] Instance demo : Externals := {|
  Table := string;
  Metadata := string;
  Archive := list string;
  from_KK := demo_from_KK;
  to_csv := fun t => t;
  read_csv := fun text => Ok text;
  loadmat := fun bytes => Ok bytes;
  tar_open := demo_tar_open;
  extractall := demo_extractall
|}.

(** The archives of one session, whose groups are numbered 1 and 3, and
    an empty export directory. *)
Definition disk0 : node :=
  Dir [("tars",
        Dir [("ratA_3.tar.gz",
              File "tar:ratA_3/ratA_3_sessInfo.mat,ratA_3/ratA_3.clu.1,ratA_3/ratA_3.clu.3");
             ("ratA_3_spk.tar.gz",
              File "tar:ratA_3/ratA_3.spk.1,ratA_3/ratA_3.spk.3")]);
       ("out", Dir [])].

Definition world0 : World := {| disk := disk0; calls := [] |}.

Definition args0 : TarloaderArgs := default_args (Some "tars") (Some "out").

(** The session index that [Tarloader('tars', 'out')] builds on [disk0]. *)
Definition loader0 : Tarloader :=
  {| tar_directory := "tars";
     export_directory := "out";
     ext := ".tar.gz";
     eeg := false;
     spk := true;
     samples := 32;
     channels := -1;
     use_disk := true;
     files := ["ratA_3"] |}.

(** The world after the first access to the session. *)
Definition world1 : World := snd (Tarloader_getitem loader0 (KInt 0) world0).

(** A disk on which a plain file bears the name of the session in the
    export directory. *)
Definition world_stub : World :=
  {| disk := Dir [("tars", Dir []); ("out", Dir [("ratA_3", File "stub")])];
     calls := [] |}.

(** The group index of the session. *)
Definition groups0 : Dataloader :=
  {| directory := "out/ratA_3";
     novel := "ratA_3/ratA_3_sessInfo.mat";
     dl_eeg := false;
     dl_spk := true;
     dl_samples := 32;
     dl_channels := -1;
     dl_use_disk := true;
     num_files := 2 |}.

(** The world after the first access to position 0 of [groups0]. *)
Definition world2 : World := snd (Dataloader_getitem groups0 0 world1).

(** A group index of the same directory with another configuration. *)
Definition groups0_plain : Dataloader :=
  {| directory := "out/ratA_3";
     novel := "other metadata";
     dl_eeg := false;
     dl_spk := false;
     dl_samples := 16;
     dl_channels := 4;
     dl_use_disk := true;
     num_files := 2 |}.


(** The archive directory without the spike archive of the session. *)
Definition world_no_spk : World :=
  {| disk :=
       Dir [("tars",
             Dir [("ratA_3.tar.gz",
                   File "tar:ratA_3/ratA_3_sessInfo.mat,ratA_3/ratA_3.clu.1")]);
            ("out", Dir [])];
     calls := [] |}.

(** The archive directory with the spike archive only. *)
Definition world_no_primary : World :=
  {| disk :=
       Dir [("tars",
             Dir [("ratA_3_spk.tar.gz", File "tar:ratA_3/ratA_3.spk.1")]);
            ("out", Dir [])];
     calls := [] |}.

(** A session directory whose group numbers lie on both sides of 2^63. *)
Definition world_large : World :=
  {| disk :=
       Dir [("s", Dir [("a_1.clu.1", File "c");
                       ("a_1.clu.9223372036854775808", File "c");
                       ("a_1.clu.9223372036854775809", File "c")])];
     calls := [] |}.

(** A session directory with a file that the group pattern accepts
    although it has no dot. *)
Definition world_malformed : World :=
  {| disk := Dir [("s", Dir [("a_1.clu.1", File "c"); ("a_1xclux2", File "c")])];
     calls := [] |}.

End Demo.

(* ================================================================== *)
(** ** Conditions on names *)

Module Names.

Import Str.

(** The digits of a name, in order. *)
Definition digits (s : string) : list ascii :=
  filter is_digit (list_ascii_of_string s).

(** [free old s]: no occurrence of [old] begins in [s]. *)
Fixpoint free (old s : string) : bool :=
  match s with
  | EmptyString => true
  | String _ s' => negb (starts_with old s) && free old s'
  end.

(** [clean old s]: when [s] is followed by [old], no occurrence of [old]
    begins inside [s]; the scan of [str.replace] then reaches the end of
    [s] before it meets [old]. *)
Fixpoint clean (old s : string) : bool :=
  match s with
  | EmptyString => true
  | String _ s' => negb (starts_with old (s ++ old)) && clean old s'
  end.

(** A session name whose archives are recognised: neither the
    extension nor a tag begins inside the name or across its end. *)
Definition tidy (ext n : string) : bool :=
  clean ext n && clean ext (n ++ "_spk") && clean ext (n ++ "_eeg")
  && free "_eeg" (n ++ "_spk") && clean "_eeg" n && clean "_spk" n.

End Names.

(* ================================================================== *)
(** ** Conditions on computations *)

Module Traces.

(** [only_calls allowed m]: whatever the world, the calls that [m] adds
    to the record are among [allowed]. *)
Definition only_calls {A} (allowed : list call) (m : M A) : Prop :=
  forall w, exists more,
    calls (snd (m w)) = (calls w ++ more)%list /\ incl more allowed.

End Traces.

(* ================================================================== *)
(** ** The matcher decides the words of a regular expression *)

Module ReFacts.

Import Re.

Lemma cat_inv r1 r2 s :
  matches (Cat r1 r2) s ->
  exists u v, s = (u ++ v)%list /\ matches r1 u /\ matches r2 v.
Proof. intros H. inversion H; subst. eauto. Qed.

Lemma alt_inv r1 r2 s : matches (Alt r1 r2) s -> matches r1 s \/ matches r2 s.
Proof. intros H. inversion H; subst; auto. Qed.

Lemma nullable_matches r : nullable r = true <-> matches r [].
Proof.
  induction r as [| | p | r1 IH1 r2 IH2 | r1 IH1 r2 IH2 | r IH]; simpl.
  - split; [discriminate | intros H; inversion H].
  - split; [constructor | reflexivity].
  - split; [discriminate | intros H; inversion H].
  - rewrite andb_true_iff, IH1, IH2. split.
    + intros [H1 H2]. exact (m_cat H1 H2).
    + intros H. apply cat_inv in H. destruct H as (u & v & Huv & Hu & Hv).
      symmetry in Huv. apply app_eq_nil in Huv. destruct Huv; subst. now split.
  - rewrite orb_true_iff, IH1, IH2. split.
    + intros [H | H]; [now apply m_alt_l | now apply m_alt_r].
    + apply alt_inv.
  - split; [constructor | reflexivity].
Qed.

(** A non-empty word of [Star r] starts with a non-empty word of [r]. *)
Lemma star_cons r c s :
  matches (Star r) (c :: s) ->
  exists u v, s = (u ++ v)%list /\ matches r (c :: u) /\ matches (Star r) v.
Proof.
  intros H. remember (Star r) as sr eqn:Er. remember (c :: s) as cs eqn:Ecs.
  induction H as [| | | | | r' | r' u v Hu _ Hv IHv]; try discriminate.
  inversion Er; subst r'. clear Er.
  destruct u as [| c' u'].
  - simpl in Ecs. apply IHv; [reflexivity | exact Ecs].
  - simpl in Ecs. inversion Ecs; subst. now exists u', v.
Qed.

Lemma deriv_matches c r : forall s, matches (deriv c r) s <-> matches r (c :: s).
Proof.
  induction r as [| | p | r1 IH1 r2 IH2 | r1 IH1 r2 IH2 | r IH]; intros s; simpl.
  - split; intros H; inversion H.
  - split; intros H; inversion H.
  - destruct (p c) eqn:Hp; split; intros H; inversion H; subst.
    + now constructor.
    + constructor.
    + congruence.
  - assert (Hcat : matches (Cat (deriv c r1) r2) s <->
                   exists u v, s = (u ++ v)%list /\ matches r1 (c :: u) /\ matches r2 v).
    { split.
      - intros H. apply cat_inv in H. destruct H as (u & v & -> & Hu & Hv).
        exists u, v. split; [reflexivity |]. split; [now apply IH1 | exact Hv].
      - intros (u & v & -> & Hu & Hv). apply m_cat; [now apply IH1 | exact Hv]. }
    assert (Hsplit : matches (Cat r1 r2) (c :: s) <->
                     (exists u v, s = (u ++ v)%list /\ matches r1 (c :: u) /\ matches r2 v)
                     \/ (matches r1 [] /\ matches r2 (c :: s))).
    { split.
      - intros H. apply cat_inv in H. destruct H as (u & v & Huv & Hu & Hv).
        destruct u as [| c' u'].
        + right. simpl in Huv. subst v. now split.
        + left. simpl in Huv. inversion Huv; subst. now exists u', v.
      - intros [(u & v & -> & Hu & Hv) | [Hn Hv]].
        + exact (m_cat Hu Hv).
        + exact (m_cat Hn Hv). }
    rewrite Hsplit. destruct (nullable r1) eqn:Hn.
    + split.
      * intros H. apply alt_inv in H. destruct H as [H | H].
        -- left. now apply Hcat.
        -- right. split; [now apply nullable_matches | now apply IH2].
      * intros [H | [_ H]].
        -- apply m_alt_l. now apply Hcat.
        -- apply m_alt_r. now apply IH2.
    + rewrite Hcat. split; [now left |].
      intros [H | [H _]]; [exact H |].
      apply nullable_matches in H. congruence.
  - split; intros H; apply alt_inv in H; destruct H as [H | H];
      solve [apply m_alt_l; now apply IH1 | apply m_alt_r; now apply IH2].
  - split.
    + intros H. apply cat_inv in H. destruct H as (u & v & -> & Hu & Hv).
      apply IH in Hu. exact (m_star_app Hu Hv).
    + intros H. apply star_cons in H. destruct H as (u & v & -> & Hu & Hv).
      apply m_cat; [now apply IH | exact Hv].
Qed.

Lemma match_prefix_spec r :
  forall l, match_prefix r l = true <->
            exists u v, l = (u ++ v)%list /\ matches r u.
Proof.
  intros l. revert r. induction l as [| c t IH]; intros r; simpl.
  - rewrite orb_false_r, nullable_matches. split.
    + intros H. now exists [], [].
    + intros (u & v & Huv & Hu). symmetry in Huv.
      apply app_eq_nil in Huv. destruct Huv; now subst.
  - rewrite orb_true_iff, nullable_matches, IH. split.
    + intros [H | (u & v & -> & Hu)].
      * now exists [], (c :: t).
      * exists (c :: u), v. split; [reflexivity | now apply deriv_matches].
    + intros (u & v & Huv & Hu). destruct u as [| c' u'].
      * now left.
      * right. simpl in Huv. inversion Huv; subst.
        exists u', v. split; [reflexivity | now apply deriv_matches].
Qed.

(** [search] holds exactly when the string has a substring among the
    words of the expression. *)
Lemma search_list_spec r :
  forall l, search_list r l = true <->
            exists p u v, l = (p ++ u ++ v)%list /\ matches r u.
Proof.
  induction l as [| c t IH]; cbn [search_list].
  - rewrite orb_false_r, match_prefix_spec. split.
    + intros (u & v & Huv & Hu). now exists [], u, v.
    + intros (p & u & v & Hl & Hu). symmetry in Hl.
      apply app_eq_nil in Hl. destruct Hl as [-> Hl].
      now exists u, v.
  - rewrite orb_true_iff, match_prefix_spec, IH. split.
    + intros [(u & v & Huv & Hu) | (p & u & v & -> & Hu)].
      * now exists [], u, v.
      * now exists (c :: p), u, v.
    + intros (p & u & v & Hl & Hu). destruct p as [| c' p'].
      * left. now exists u, v.
      * right. simpl in Hl. inversion Hl; subst. now exists p', u, v.
Qed.

Lemma search_spec r s :
  search r s = true <->
  exists p u v, list_ascii_of_string s = (p ++ u ++ v)%list /\ matches r u.
Proof. apply search_list_spec. Qed.

End ReFacts.

(* ================================================================== *)
(** ** The session pattern *)

Module PatternFacts.

Import Str Re ReFacts Dataloaders.

Lemma class_inv p s : matches (Class p) s -> exists c, s = [c] /\ p c = true.
Proof. intros H. inversion H; subst. eauto. Qed.

Lemma eps_inv s : matches Eps s -> s = [].
Proof. intros H. now inversion H. Qed.

Lemma star_class_all p s : matches (Star (Class p)) s -> Forall (fun c => p c = true) s.
Proof.
  intros H. remember (Star (Class p)) as r eqn:Er.
  induction H as [| | | | | r' | r' u v Hu _ Hv IHv]; try discriminate.
  - constructor.
  - inversion Er; subst r'. apply class_inv in Hu. destruct Hu as (c & -> & Hc).
    constructor; [exact Hc | now apply IHv].
Qed.

Lemma plus_class_inv p s :
  matches (Plus (Class p)) s ->
  exists c t, s = c :: t /\ p c = true /\ Forall (fun c => p c = true) t.
Proof.
  intros H. apply cat_inv in H. destruct H as (u & v & -> & Hu & Hv).
  apply class_inv in Hu. destruct Hu as (c & -> & Hc).
  exists c, v. split; [reflexivity |]. split; [exact Hc | now apply star_class_all].
Qed.

Lemma plus_class_one (p : ascii -> bool) c : p c = true -> matches (Plus (Class p)) [c].
Proof.
  intros Hc. change [c] with ([c] ++ [])%list.
  apply m_cat; [now constructor | constructor].
Qed.

(** A name passes the filter of [Tarloader.__init__] exactly when it
    holds, somewhere, a letter, an underscore and a digit in a row; the
    optional extension of the pattern decides nothing. *)
Lemma session_re_spec f :
  search session_re f = true <->
  exists p a d q,
    list_ascii_of_string f = (p ++ a :: "_"%char :: d :: q)%list /\
    is_alpha a = true /\ is_digit d = true.
Proof.
  rewrite search_spec. split.
  - intros (p & u & v & Hf & Hu). unfold session_re in Hu.
    apply cat_inv in Hu. destruct Hu as (letters & u1 & -> & Hletters & Hu).
    apply cat_inv in Hu. destruct Hu as (under & u2 & -> & Hunder & Hu).
    apply cat_inv in Hu. destruct Hu as (digits & tail & -> & Hdigits & _).
    apply class_inv in Hunder. destruct Hunder as (c & -> & Hc).
    apply Ascii.eqb_eq in Hc. subst c.
    apply plus_class_inv in Hdigits. destruct Hdigits as (d & ds & -> & Hd & _).
    apply plus_class_inv in Hletters. destruct Hletters as (a0 & ls & -> & Ha0 & Hls).
    destruct (@exists_last _ (a0 :: ls)) as (front & a & Hlast); [discriminate |].
    assert (Ha : is_alpha a = true).
    { assert (Hall : Forall (fun c => is_alpha c = true) (a0 :: ls))
        by (constructor; assumption).
      rewrite Hlast in Hall. apply Forall_app in Hall. destruct Hall as [_ Hall].
      now inversion Hall. }
    exists (p ++ front)%list, a, d, (ds ++ tail ++ v)%list.
    split; [| now split].
    rewrite Hf, Hlast. simpl. rewrite <- !app_assoc. simpl.
    rewrite <- !app_assoc. reflexivity.
  - intros (p & a & d & q & Hf & Ha & Hd).
    exists p, [a; "_"%char; d], q. split; [exact Hf |].
    unfold session_re.
    change [a; "_"%char; d] with ([a] ++ ["_"%char] ++ [d] ++ [])%list.
    apply m_cat; [now apply plus_class_one |].
    apply m_cat; [constructor; apply Ascii.eqb_refl |].
    apply m_cat; [now apply plus_class_one |].
    apply m_alt_r. constructor.
Qed.

End PatternFacts.

(* ================================================================== *)
(** ** Facts about [numpy.unique] *)

Module UniqueFacts.

Import Unique.

Section Order.

Variable A : Type.
Variable cmp : A -> A -> comparison.
Hypothesis cmp_eq : forall a b, cmp a b = Eq <-> a = b.
Hypothesis cmp_antisym : forall a b, cmp a b = CompOpp (cmp b a).
Hypothesis cmp_trans : forall a b c, cmp a b = Lt -> cmp b c = Lt -> cmp a c = Lt.

Local Abbreviation lt := (lt cmp).
Local Abbreviation le := (le cmp).
Local Abbreviation insert := (insert cmp).
Local Abbreviation sort := (sort cmp).
Local Abbreviation squash := (squash cmp).
Local Abbreviation unique := (unique cmp).

(** *** The order *)

Lemma cmp_refl a : cmp a a = Eq.
Proof. now apply cmp_eq. Qed.

Lemma cmp_gt_lt a b : cmp a b = Gt -> cmp b a = Lt.
Proof. intros H. rewrite cmp_antisym, H. reflexivity. Qed.

Lemma lt_irrefl a : ~ lt a a.
Proof. unfold lt. rewrite cmp_refl. discriminate. Qed.

Lemma lt_le a b : lt a b -> le a b.
Proof. unfold lt, le. intros ->. discriminate. Qed.

Lemma le_cases a b : le a b -> a = b \/ lt a b.
Proof.
  unfold le, lt. destruct (cmp a b) eqn:E; intros H.
  - left. now apply cmp_eq.
  - now right.
  - now elim H.
Qed.

Lemma le_trans a b c : le a b -> le b c -> le a c.
Proof.
  intros Hab Hbc.
  destruct (le_cases Hab) as [-> | Hab']; [assumption |].
  destruct (le_cases Hbc) as [<- | Hbc']; [assumption |].
  apply lt_le. exact (cmp_trans Hab' Hbc').
Qed.

(** *** Sorting keeps the elements and orders them *)

Lemma in_insert a x l : In a (insert x l) <-> a = x \/ In a l.
Proof.
  induction l as [| y t IH]; simpl.
  - intuition.
  - destruct (cmp x y); simpl; rewrite ?IH; intuition.
Qed.

Lemma in_sort a l : In a (sort l) <-> In a l.
Proof.
  induction l as [| x t IH]; simpl.
  - tauto.
  - rewrite in_insert, IH. intuition.
Qed.

Lemma insert_sorted x l :
  StronglySorted le l -> StronglySorted le (insert x l).
Proof.
  induction 1 as [| y t Ht IH Hy]; simpl.
  - constructor; constructor.
  - destruct (cmp x y) eqn:E.
    + constructor. { now constructor. }
      assert (Hxy : le x y) by (unfold le; rewrite E; discriminate).
      constructor; [assumption |].
      eapply Forall_impl; [| exact Hy]. intros z Hz. exact (le_trans Hxy Hz).
    + constructor. { now constructor. }
      assert (Hxy : le x y) by (unfold le; rewrite E; discriminate).
      constructor; [assumption |].
      eapply Forall_impl; [| exact Hy]. intros z Hz. exact (le_trans Hxy Hz).
    + constructor; [assumption |].
      apply Forall_forall. intros z Hz. apply in_insert in Hz.
      destruct Hz as [-> | Hz].
      * apply lt_le. now apply cmp_gt_lt.
      * rewrite Forall_forall in Hy. now apply Hy.
Qed.

Lemma sort_sorted l : StronglySorted le (sort l).
Proof.
  induction l; simpl; [constructor | now apply insert_sorted].
Qed.

(** *** Squashing a sorted list leaves a strictly increasing one *)

Lemma in_squash a l : In a (squash l) <-> In a l.
Proof.
  induction l as [| x t IH]; [tauto |].
  destruct t as [| y t']; [tauto |].
  change (squash (x :: y :: t')) with
    (match cmp x y with Eq => squash (y :: t') | _ => x :: squash (y :: t') end).
  destruct (cmp x y) eqn:E.
  - apply cmp_eq in E. subst y. rewrite IH. simpl. tauto.
  - simpl In at 1. rewrite IH. simpl. tauto.
  - simpl In at 1. rewrite IH. simpl. tauto.
Qed.

Lemma squash_sorted l :
  StronglySorted le l -> StronglySorted lt (squash l).
Proof.
  induction 1 as [| x t Ht IH Hx]; [constructor |].
  destruct t as [| y t']; [repeat constructor |].
  change (squash (x :: y :: t')) with
    (match cmp x y with Eq => squash (y :: t') | _ => x :: squash (y :: t') end).
  assert (Hlt : cmp x y <> Eq -> Forall (lt x) (squash (y :: t'))).
  { intros Hne. apply Forall_forall. intros z Hz. rewrite in_squash in Hz.
    assert (Hxy : lt x y).
    { inversion Hx as [| ? ? Hxy _]; subst.
      destruct (le_cases Hxy) as [-> | H']; [| exact H'].
      elim Hne. apply cmp_refl. }
    simpl in Hz. destruct Hz as [Hz | Hz]; [subst z; exact Hxy |].
    inversion Ht as [| ? ? _ Hy]; subst.
    rewrite Forall_forall in Hy. specialize (Hy z Hz).
    destruct (le_cases Hy) as [<- | Hyz]; [exact Hxy |].
    exact (cmp_trans Hxy Hyz). }
  destruct (cmp x y) eqn:E.
  - exact IH.
  - constructor; [exact IH | apply Hlt; discriminate].
  - constructor; [exact IH | apply Hlt; discriminate].
Qed.

Lemma strictly_sorted_nodup l : StronglySorted lt l -> NoDup l.
Proof.
  induction 1 as [| x t Ht IH Hx]; constructor; [| assumption].
  intros Hin. rewrite Forall_forall in Hx. exact (lt_irrefl (Hx x Hin)).
Qed.

(** A strictly increasing list is determined by its elements. *)
Lemma strictly_sorted_ext l1 :
  forall l2,
    StronglySorted lt l1 -> StronglySorted lt l2 ->
    (forall a, In a l1 <-> In a l2) -> l1 = l2.
Proof.
  induction l1 as [| x t1 IH]; intros l2 H1 H2 Hin.
  - destruct l2 as [| y t2]; [reflexivity |].
    exfalso. apply (Hin y). now left.
  - destruct l2 as [| y t2].
    { exfalso. apply (Hin x). now left. }
    inversion H1 as [| ? ? Ht1 Hx]; subst.
    inversion H2 as [| ? ? Ht2 Hy]; subst.
    rewrite Forall_forall in Hx, Hy.
    assert (Hxy : x = y).
    { destruct (proj1 (Hin x) (or_introl eq_refl)) as [E | Hx2]; [now symmetry |].
      destruct (proj2 (Hin y) (or_introl eq_refl)) as [E | Hy1]; [assumption |].
      exfalso. apply (@lt_irrefl x).
      exact (cmp_trans (Hx _ Hy1) (Hy _ Hx2)). }
    subst y. f_equal. apply IH; try assumption.
    intros a. split; intros Ha.
    + destruct (proj1 (Hin a) (or_intror Ha)) as [E | Ha2]; [| exact Ha2].
      subst a. exfalso. exact (lt_irrefl (Hx _ Ha)).
    + destruct (proj2 (Hin a) (or_intror Ha)) as [E | Ha1]; [| exact Ha1].
      subst a. exfalso. exact (lt_irrefl (Hy _ Ha)).
Qed.

(** *** What [unique] returns *)

Lemma in_unique a l : In a (unique l) <-> In a l.
Proof. unfold unique. now rewrite in_squash, in_sort. Qed.

Lemma unique_sorted l : StronglySorted lt (unique l).
Proof. apply squash_sorted, sort_sorted. Qed.

Lemma unique_nodup l : NoDup (unique l).
Proof. apply strictly_sorted_nodup, unique_sorted. Qed.

Lemma unique_ext l1 l2 :
  (forall a, In a l1 <-> In a l2) -> unique l1 = unique l2.
Proof.
  intros H. apply strictly_sorted_ext; try apply unique_sorted.
  intros a. now rewrite !in_unique.
Qed.

(** The number of elements of [unique l] is the number of distinct
    elements of [l], however those are counted. *)
Lemma unique_length (dec : forall a b : A, {a = b} + {a <> b}) l :
  List.length (unique l) = List.length (nodup dec l).
Proof.
  apply Permutation_length, NoDup_Permutation.
  - apply unique_nodup.
  - apply NoDup_nodup.
  - intros a. now rewrite in_unique, nodup_In.
Qed.

End Order.

Lemma str_cmp_eq a b : String.compare a b = Eq <-> a = b.
Proof. exact (String_as_OT.cmp_eq a b). Qed.

Lemma str_cmp_antisym a b : String.compare a b = CompOpp (String.compare b a).
Proof. exact (String.compare_antisym a b). Qed.

Lemma str_cmp_trans a b c :
  String.compare a b = Lt -> String.compare b c = Lt -> String.compare a c = Lt.
Proof.
  intros H1 H2. apply String_as_OT.cmp_lt.
  apply String_as_OT.lt_trans with b; now apply String_as_OT.cmp_lt.
Qed.




(** The two instances. *)
Lemma unique_str_in name l : In name (Unique.unique_str l) <-> In name l.
Proof. apply in_unique. exact str_cmp_eq. Qed.

Lemma unique_str_sorted l : StronglySorted Unique.str_lt (Unique.unique_str l).
Proof.
  apply unique_sorted;
    [exact str_cmp_eq | exact str_cmp_antisym | exact str_cmp_trans].
Qed.

Lemma unique_str_nodup l : NoDup (Unique.unique_str l).
Proof.
  apply unique_nodup;
    [exact str_cmp_eq | exact str_cmp_antisym | exact str_cmp_trans].
Qed.

Lemma unique_str_length l :
  List.length (Unique.unique_str l) = List.length (nodup string_dec l).
Proof.
  apply unique_length;
    [exact str_cmp_eq | exact str_cmp_antisym | exact str_cmp_trans].
Qed.

Lemma str_sorted_ext l1 l2 :
  StronglySorted Unique.str_lt l1 -> StronglySorted Unique.str_lt l2 ->
  (forall name, In name l1 <-> In name l2) -> l1 = l2.
Proof.
  apply strictly_sorted_ext; [exact str_cmp_eq | exact str_cmp_trans].
Qed.







End UniqueFacts.

(* ================================================================== *)
(** ** Facts about paths and the directory tree *)

Module OsFacts.

Import Str Os.

(** *** Splitting and joining paths *)

Lemma append_assoc (a b c : string) : ((a ++ b) ++ c)%string = (a ++ b ++ c)%string.
Proof. induction a as [| x a IH]; simpl; [reflexivity | now rewrite IH]. Qed.

Lemma append_empty_r (a : string) : (a ++ EmptyString)%string = a.
Proof. induction a as [| x a IH]; simpl; [reflexivity | now rewrite IH]. Qed.

Lemma split_on_cons sep s : exists w ws, split_on sep s = w :: ws.
Proof.
  destruct s as [| c s]; simpl; [now eauto |].
  destruct (Ascii.eqb c sep); [now eauto |].
  destruct (split_on sep s); eauto.
Qed.

Lemma split_on_app sep a b :
  split_on sep (a ++ String sep b) = (split_on sep a ++ split_on sep b)%list.
Proof.
  induction a as [| c a IH]; simpl.
  - now rewrite Ascii.eqb_refl.
  - destruct (Ascii.eqb c sep); [now rewrite IH |].
    rewrite IH. destruct (split_on_cons sep a) as (w & ws & ->). reflexivity.
Qed.

Lemma split_on_whole sep s : has_char sep s = false -> split_on sep s = [s].
Proof.
  induction s as [| c s IH]; simpl; [reflexivity |].
  intros H. apply orb_false_iff in H. destruct H as [Hc Hs].
  rewrite Hc, (IH Hs). reflexivity.
Qed.

Lemma ends_with_char_inv c a :
  ends_with_char c a = true -> exists a', a = (a' ++ String c EmptyString)%string.
Proof.
  induction a as [| x a IH]; simpl; [discriminate |].
  destruct a as [| y a'].
  - intros H. apply Ascii.eqb_eq in H. subst x. now exists EmptyString.
  - intros H. destruct (IH H) as [a0 E]. exists (String x a0). simpl. now rewrite <- E.
Qed.

Lemma components_empty : components EmptyString = [].
Proof. reflexivity. Qed.

Lemma components_entry n : entry_name n = true -> components n = [n].
Proof.
  unfold entry_name, components. intros H.
  apply andb_true_iff in H. destruct H as [Hc Hs].
  apply negb_true_iff in Hs. rewrite (split_on_whole _ _ Hs). simpl.
  now rewrite Hc.
Qed.

Lemma components_join a b :
  starts_with "/" b = false ->
  components (path_join a b) = (components a ++ components b)%list.
Proof.
  intros Hb. unfold path_join. rewrite Hb.
  destruct (String.eqb a EmptyString) eqn:Ea.
  - apply String.eqb_eq in Ea. subst a. reflexivity.
  - simpl. destruct (ends_with_char "/" a) eqn:Es.
    + destruct (ends_with_char_inv _ _ Es) as [a' ->].
      unfold components. rewrite append_assoc. simpl.
      rewrite !split_on_app, !filter_app. simpl. now rewrite app_nil_r.
    + unfold components. simpl. now rewrite split_on_app, filter_app.
Qed.

Lemma starts_with_cons a p b s :
  starts_with (String a p) (String b s) = Ascii.eqb a b && starts_with p s.
Proof.
  unfold starts_with. simpl. destruct (Ascii.eqb a b); reflexivity.
Qed.

Lemma entry_name_not_slash n s :
  entry_name n = true -> starts_with "/" (n ++ s) = false.
Proof.
  destruct n as [| c n]; [discriminate |].
  unfold entry_name. simpl. intros H.
  apply andb_true_iff in H. destruct H as [_ H].
  apply negb_true_iff, orb_false_iff in H. destruct H as [H _].
  rewrite starts_with_cons, Ascii.eqb_sym, H. reflexivity.
Qed.

(** *** Walking the tree *)

Lemma walk_app a b n :
  walk (a ++ b)%list n =
  match walk a n with
  | Found m => walk b m
  | Missing => Missing
  | NotADir => NotADir
  end.
Proof.
  revert n. induction a as [| c a IH]; intros n; simpl; [reflexivity |].
  destruct n as [d | es]; [reflexivity |].
  destruct (assoc c es); [apply IH | reflexivity].
Qed.

Lemma assoc_in k es v : assoc k es = Some v -> In k (map fst es).
Proof.
  induction es as [| [k' v'] t IH]; simpl; [discriminate |].
  destruct (String.eqb_spec k k') as [-> | _]; [now left | right; now apply IH].
Qed.

Lemma assoc_set_entry k v es x :
  assoc k es = Some x -> assoc k (set_entry k v es) = Some v.
Proof.
  induction es as [| [k' v'] t IH]; simpl; [discriminate |].
  destruct (String.eqb k k') eqn:E; simpl; rewrite E; [reflexivity | exact IH].
Qed.

Lemma assoc_new k v es :
  assoc k es = None -> assoc k (es ++ [(k, v)])%list = Some v.
Proof.
  induction es as [| [k' v'] t IH]; simpl.
  - now rewrite String.eqb_refl.
  - destruct (String.eqb k k'); [discriminate | exact IH].
Qed.

(** A file found below [e/n] makes [n] an entry of the listing of [e]. *)
Lemma read_file_listed root e n f d :
  entry_name n = true ->
  starts_with "/" f = false ->
  e <> EmptyString ->
  read_file root (path_join3 e n f) = Ok d ->
  exists names, listdir root e = Ok names /\ In n names.
Proof.
  intros Hn Hf He Hread.
  unfold read_file, resolve in Hread.
  destruct (String.eqb (path_join3 e n f) EmptyString); [discriminate |].
  unfold path_join3 in Hread.
  rewrite (components_join _ _ Hf) in Hread.
  assert (Hn' : starts_with "/" n = false).
  { rewrite <- (append_empty_r n). now apply entry_name_not_slash. }
  rewrite (components_join _ _ Hn'), (components_entry _ Hn) in Hread.
  rewrite <- app_assoc, walk_app in Hread.
  unfold listdir, resolve.
  apply String.eqb_neq in He. rewrite He.
  destruct (walk (components e) root) as [m | |]; try discriminate.
  simpl in Hread. destruct m as [x | es]; [discriminate |].
  destruct (assoc n es) as [child |] eqn:Ha; [| discriminate].
  exists (map fst es). split; [reflexivity | exact (assoc_in _ _ Ha)].
Qed.

(** What has been written is what is read. *)
Lemma walk_put p cs data :
  forall n n', put p cs data n = Ok n' -> walk cs n' = Found (File data).
Proof.
  induction cs as [| c cs IH]; intros n n'; simpl.
  - destruct n; [| discriminate]. intros H. now inversion H.
  - destruct n as [x | es]; [discriminate |].
    destruct (assoc c es) as [child |] eqn:Ha.
    + destruct (put p cs data child) as [child' |] eqn:Hp; simpl; [| discriminate].
      intros H. inversion H; subst. simpl.
      rewrite (assoc_set_entry _ child' _ Ha). exact (IH _ _ Hp).
    + destruct cs as [| c' cs']; [| discriminate].
      intros H. inversion H; subst. simpl.
      now rewrite (assoc_new _ (File data) _ Ha).
Qed.

Lemma read_after_write root p data root' :
  write_file root p data = Ok root' ->
  read_file root' p = Ok data /\ isfile root' p = true.
Proof.
  unfold write_file, read_file, isfile, resolve.
  destruct (String.eqb p EmptyString); [discriminate |].
  intros H. now rewrite (walk_put _ _ _ _ H).
Qed.

End OsFacts.

(* ================================================================== *)
(** ** Running a computation *)

Module RunFacts.

Lemma bind_ok {A B} (m : M A) (k : A -> M B) w b w' :
  bind m k w = (Ok b, w') ->
  exists a w0, m w = (Ok a, w0) /\ k a w0 = (Ok b, w').
Proof.
  unfold bind. destruct (m w) as [[a | e] w0]; intros H.
  - now exists a, w0.
  - discriminate.
Qed.

Lemma bind_run {A B} (m : M A) (k : A -> M B) w a w0 :
  m w = (Ok a, w0) -> bind m k w = k a w0.
Proof. unfold bind. now intros ->. Qed.

Lemma bind_fail {A B} (m : M A) (k : A -> M B) w e w0 :
  m w = (Raise e, w0) -> bind m k w = (Raise e, w0).
Proof. unfold bind. now intros ->. Qed.

Lemma lift_ok {A} (r : result A) w a w' :
  lift r w = (Ok a, w') -> r = Ok a /\ w' = w.
Proof. unfold lift. intros H. now inversion H. Qed.

Lemma on_disk_ok {A} (f : node -> result A) w a w' :
  on_disk f w = (Ok a, w') -> f (disk w) = Ok a /\ w' = w.
Proof. unfold on_disk. intros H. now inversion H. Qed.

Lemma world_eta w : {| disk := disk w; calls := calls w |} = w.
Proof. now destruct w. Qed.

End RunFacts.

(* ================================================================== *)
(** ** Properties of the session index and the group index *)

Import Str Re Dataloaders RunFacts.

Section Construction.

Context {E : Externals}.

(** The two assertions of [Tarloader.__init__] run in order and before
    anything is read. *)
Lemma Tarloader_init_unfold (a : TarloaderArgs) (w : World) :
  Tarloader_init a w =
  if truthy (arg_tar_directory a) || truthy (arg_export_directory a) then
    if arg_eeg a then (Raise (AssertionError msg_eeg), w)
    else
      let tar := filled_tar (arg_tar_directory a) (arg_export_directory a) in
      let export := filled_export (arg_tar_directory a) (arg_export_directory a) in
      match listdir (disk w) tar with
      | Raise e => (Raise e, w)
      | Ok in_tar =>
          match listdir (disk w) export with
          | Raise e => (Raise e, w)
          | Ok in_export =>
              (Ok {| tar_directory := tar;
                     export_directory := export;
                     ext := arg_ext a;
                     eeg := arg_eeg a;
                     spk := arg_spk a;
                     samples := arg_samples a;
                     channels := arg_channels a;
                     use_disk := arg_use_disk a;
                     files := Unique.unique_str
                                (candidate_names (arg_ext a) (in_tar ++ in_export)%list) |},
               w)
          end
      end
  else (Raise (AssertionError msg_no_directory), w).
Proof.
  unfold Tarloader_init, bind, py_assert, on_disk, ret, raise.
  destruct (truthy (arg_tar_directory a) || truthy (arg_export_directory a));
    [| reflexivity].
  destruct (arg_eeg a); simpl; [reflexivity |].
  destruct (listdir (disk w) _); [| reflexivity].
  destruct (listdir (disk w) _); reflexivity.
Qed.

(** C8, as the code has it.  Construction raises the directory assertion
    when neither directory is supplied (a missing or empty argument), whatever
    [eeg] is; it raises the eeg assertion when a directory is supplied and
    [eeg] is requested; in both cases the world is left as it was and no
    loader is built.  With a directory and without [eeg] both assertions
    pass, and construction returns a loader as soon as the two
    directories can be listed. *)
Theorem Tarloader_init_guards (a : TarloaderArgs) (w : World) :
  let supplied := truthy (arg_tar_directory a) || truthy (arg_export_directory a) in
  let tar := filled_tar (arg_tar_directory a) (arg_export_directory a) in
  let export := filled_export (arg_tar_directory a) (arg_export_directory a) in
  (supplied = false ->
   Tarloader_init a w = (Raise (AssertionError msg_no_directory), w)) /\
  (supplied = true -> arg_eeg a = true ->
   Tarloader_init a w = (Raise (AssertionError msg_eeg), w)) /\
  (supplied = true -> arg_eeg a = false ->
   (forall msg, fst (Tarloader_init a w) <> Raise (AssertionError msg)) /\
   (is_ok (listdir (disk w) tar) && is_ok (listdir (disk w) export) = true ->
    exists self,
      Tarloader_init a w = (Ok self, w) /\
      tar_directory self = tar /\ export_directory self = export)).
Proof.
  intros supplied tar export. rewrite Tarloader_init_unfold.
  fold supplied tar export.
  split; [| split].
  - intros ->. reflexivity.
  - intros -> ->. reflexivity.
  - intros -> ->. cbv zeta. split.
    + intros msg.
      unfold listdir.
      destruct (resolve (disk w) tar) as [[d | es] | |]; simpl; try discriminate;
        destruct (resolve (disk w) export) as [[d' | es'] | |]; simpl; discriminate.
    + destruct (listdir (disk w) tar) as [in_tar | e]; [| discriminate].
      destruct (listdir (disk w) export) as [in_export | e]; [| discriminate].
      intros _. eexists. split; [reflexivity |]. split; reflexivity.
Qed.

End Construction.

(** The session index of the demonstration disk is built. *)
Lemma Tarloader_init_guards_witness :
  exists self, Tarloader_init Demo.args0 Demo.world0 = (Ok self, Demo.world0).
Proof.
  destruct (Tarloader_init_guards Demo.args0 Demo.world0) as (_ & _ & H).
  destruct (H eq_refl eq_refl) as [_ H'].
  destruct (H' eq_refl) as (self & Hself & _).
  exists self. exact Hself.
Defined.

(** C8 as stated fails twice: with [eeg] requested and no directory the
    directory assertion is the one raised, and a directory that is not on
    the disk makes construction fail although a directory is supplied and
    [eeg] is not requested. *)
Lemma Tarloader_init_eeg_without_directory :
  fst (Tarloader_init
         {| arg_tar_directory := None; arg_export_directory := None;
            arg_ext := ".tar.gz"; arg_eeg := true; arg_spk := true;
            arg_samples := 32; arg_channels := -1; arg_use_disk := true |}
         Demo.world0)
  = Raise (AssertionError msg_no_directory)
  /\ msg_no_directory <> msg_eeg
  /\ fst (Tarloader_init (default_args (Some "nowhere") None) Demo.world0)
     = Raise (FileNotFoundError "nowhere").
Proof.
  split; [reflexivity |]. split; [discriminate | reflexivity].
Qed.

(* ------------------------------------------------------------------ *)
(** *** Extraction *)

Section Extraction.

Context {E : Externals}.

Lemma extends_refl w : extends w w.
Proof. exists []. now rewrite app_nil_r. Qed.

Lemma extends_trans w1 w2 w3 : extends w1 w2 -> extends w2 w3 -> extends w1 w3.
Proof.
  intros [m1 H1] [m2 H2]. exists (m1 ++ m2)%list.
  now rewrite H2, H1, app_assoc.
Qed.

Lemma bind_extends {A B} (m : M A) (k : A -> M B) w :
  (forall w0, extends w0 (snd (m w0))) ->
  (forall a w0, extends w0 (snd (k a w0))) ->
  extends w (snd (bind m k w)).
Proof.
  intros Hm Hk. unfold bind. specialize (Hm w).
  destruct (m w) as [[a | e] w0]; simpl in *; [| exact Hm].
  exact (extends_trans Hm (Hk a w0)).
Qed.

(** Opening an archive is recorded before anything can fail. *)
Lemma extract_archive_calls path dest w :
  exists rest,
    calls (snd (extract_archive path dest w)) = (calls w ++ TarOpen path :: rest)%list.
Proof.
  unfold extract_archive, bind, log, on_disk, lift. simpl.
  destruct (read_file (disk w) path) as [bytes | e]; [| now exists []].
  destruct (tar_open bytes) as [archive | e]; [| now exists []].
  simpl. destruct (extractall archive dest (disk w)) as [r d'].
  exists [TarExtractAll path dest]. simpl. now rewrite <- app_assoc.
Qed.

Lemma extract_archive_extends path dest w :
  extends w (snd (extract_archive path dest w)).
Proof.
  destruct (extract_archive_calls path dest w) as [rest H].
  now exists (TarOpen path :: rest).
Qed.

Lemma when_extends b (m : M unit) w :
  (forall w0, extends w0 (snd (m w0))) -> extends w (snd (when b m w)).
Proof.
  intros H. destruct b; simpl; [apply H | apply extends_refl].
Qed.

(** The two ways through [Tarloader.extract]. *)
Lemma extract_run self index w name present :
  list_getitem (files self) index = Ok name ->
  listdir (disk w) (export_directory self) = Ok present ->
  extract self index w =
  if existsb (String.eqb name) present then (Ok tt, w)
  else
    bind (extract_archive (path_join (tar_directory self) (name ++ ext self))
                          (export_directory self))
         (fun _ =>
            bind (when (eeg self)
                    (extract_archive
                       (path_join (tar_directory self) (name ++ "_eeg" ++ ext self))
                       (export_directory self)))
                 (fun _ =>
                    when (spk self)
                      (extract_archive
                         (path_join (tar_directory self) (name ++ "_spk" ++ ext self))
                         (export_directory self)))) w.
Proof.
  intros Hname Hlist. unfold extract.
  unfold bind at 1. unfold lift. rewrite Hname.
  unfold bind at 1. unfold on_disk. rewrite Hlist.
  destruct (existsb (String.eqb name) present); reflexivity.
Qed.

Lemma existsb_eqb_in name present :
  existsb (String.eqb name) present = true <-> In name present.
Proof.
  rewrite existsb_exists. split.
  - intros (x & Hx & Heq). apply String.eqb_eq in Heq. now subst.
  - intros H. exists name. split; [exact H | apply String.eqb_refl].
Qed.

Lemma app_cons_not_self {A} (l : list A) x rest : l <> (l ++ x :: rest)%list.
Proof.
  intros H. apply (f_equal (@List.length A)) in H.
  rewrite length_app in H. simpl in H. lia.
Qed.

(** C10.  With the session name at a valid position and the export
    directory listed, [extract] returns at once, leaving the disk and the
    record of calls as they were, exactly when some entry of the listing
    bears the session name, be it a file or a directory, full or empty;
    otherwise the primary archive is opened first. *)
Theorem extract_skipped_iff_listed
    (self : Tarloader) (index : Z) (w : World) (name : string)
    (entries : list (string * node)) :
  list_getitem (files self) index = Ok name ->
  resolve (disk w) (export_directory self) = Found (Dir entries) ->
  let primary := path_join (tar_directory self) (name ++ ext self) in
  (forall child, In (name, child) entries -> extract self index w = (Ok tt, w)) /\
  ((forall child, ~ In (name, child) entries) ->
   exists rest,
     calls (snd (extract self index w)) = (calls w ++ TarOpen primary :: rest)%list) /\
  (calls (snd (extract self index w)) = calls w <->
   exists child, In (name, child) entries).
Proof.
  intros Hname Hres primary.
  assert (Hlist : listdir (disk w) (export_directory self) = Ok (map fst entries)).
  { unfold listdir. now rewrite Hres. }
  assert (Hin : In name (map fst entries) <-> exists child, In (name, child) entries).
  { rewrite in_map_iff. split.
    - intros ([k v] & Hk & Hkv). simpl in Hk. subst k. now exists v.
    - intros (v & Hv). now exists (name, v). }
  assert (Hskip : In name (map fst entries) -> extract self index w = (Ok tt, w)).
  { intros H. rewrite (extract_run _ _ _ Hname Hlist).
    apply existsb_eqb_in in H. now rewrite H. }
  assert (Hopen : ~ In name (map fst entries) ->
                  exists rest, calls (snd (extract self index w))
                               = (calls w ++ TarOpen primary :: rest)%list).
  { intros H. rewrite (extract_run _ _ _ Hname Hlist).
    destruct (existsb (String.eqb name) (map fst entries)) eqn:Ex.
    { elim H. now apply existsb_eqb_in. }
    destruct (extract_archive_calls primary (export_directory self) w) as [rest Hrest].
    fold primary. unfold bind at 1.
    destruct (extract_archive primary (export_directory self) w) as [[[] | e] w0];
      simpl in Hrest |- *; [| now exists rest].
    match goal with |- context [snd (?m w0)] =>
      assert (Hext : extends w0 (snd (m w0))) end.
    { apply bind_extends.
      - intros w1. apply when_extends. intros w2. apply extract_archive_extends.
      - intros _ w1. apply when_extends. intros w2. apply extract_archive_extends. }
    destruct Hext as [more Hmore]. exists (rest ++ more)%list.
    rewrite Hmore, Hrest, <- app_assoc. reflexivity. }
  split; [| split].
  - intros child Hc. apply Hskip, Hin. now exists child.
  - intros Hnone. apply Hopen. intros H. apply Hin in H.
    destruct H as [child Hc]. exact (Hnone child Hc).
  - rewrite <- Hin. split.
    + intros Hcalls.
      destruct (in_dec string_dec name (map fst entries)) as [Hyes | Hno];
        [exact Hyes |].
      destruct (Hopen Hno) as [rest Hrest]. rewrite Hrest in Hcalls.
      symmetry in Hcalls. now apply app_cons_not_self in Hcalls.
    + intros H. now rewrite (Hskip H).
Qed.

End Extraction.

(** On a disk where a plain file bears the session name, nothing is
    opened. *)
Lemma extract_skipped_iff_listed_witness :
  extract (E := Demo.demo) Demo.loader0 0 Demo.world_stub = (Ok tt, Demo.world_stub).
Proof.
  destruct (@extract_skipped_iff_listed Demo.demo Demo.loader0 0 Demo.world_stub
              "ratA_3" [("ratA_3", File "stub")] eq_refl eq_refl) as (H & _ & _).
  apply (H (File "stub")). left. reflexivity.
Defined.

(* ------------------------------------------------------------------ *)
(** *** Access to a session *)

Section SessionAccess.

Context {E : Externals}.

(** Building a group index reads the disk and nothing else. *)
Lemma Dataloader_init_run directory novel eeg spk samples channels use_disk w :
  Dataloader_init directory novel eeg spk samples channels use_disk w =
  (rbind (listdir (disk w) directory) (fun files =>
   rbind (group_numbers files) (fun nums =>
   Ok {| directory := directory;
         novel := novel;
         dl_eeg := eeg;
         dl_spk := spk;
         dl_samples := samples;
         dl_channels := channels;
         dl_use_disk := use_disk;
         num_files := List.length (Unique.unique_int nums) |})), w).
Proof.
  unfold Dataloader_init, bind, on_disk, lift, ret.
  destruct (listdir (disk w) directory) as [files | e]; simpl; [| reflexivity].
  destruct (group_numbers files); reflexivity.
Qed.

Lemma mat73_loadmat_run path w :
  mat73_loadmat path w =
  (rbind (read_file (disk w) path) loadmat,
   {| disk := disk w; calls := (calls w ++ [MatLoad path])%list |}).
Proof.
  unfold mat73_loadmat, bind, log, on_disk, lift. simpl.
  destruct (read_file (disk w) path); reflexivity.
Qed.

(** The steps of a successful access. *)
Lemma Tarloader_getitem_ok self index w r w1 :
  Tarloader_getitem self index w = (Ok r, w1) ->
  exists i name we bytes meta,
    position (files self) index = Ok i /\
    extract self i w = (Ok tt, we) /\
    list_getitem (files self) i = Ok name /\
    read_file (disk we)
      (path_join3 (export_directory self) name (name ++ "_sessInfo.mat")) = Ok bytes /\
    loadmat bytes = Ok meta /\
    fst (Dataloader_init (path_join (export_directory self) name) meta
           (eeg self) (spk self) (samples self) (channels self) (use_disk self) we)
    = Ok r /\
    w1 = {| disk := disk we;
            calls := (calls we ++
                      [MatLoad (path_join3 (export_directory self) name
                                           (name ++ "_sessInfo.mat"))])%list |}.
Proof.
  unfold Tarloader_getitem. intros H.
  apply bind_ok in H. destruct H as (i & w0 & Hpos & H).
  apply lift_ok in Hpos. destruct Hpos as [Hpos ->].
  apply bind_ok in H. destruct H as ([] & we & Hext & H).
  apply bind_ok in H. destruct H as (name & w0 & Hname & H).
  apply lift_ok in Hname. destruct Hname as [Hname ->].
  apply bind_ok in H. destruct H as (meta & w0 & Hmat & H).
  rewrite mat73_loadmat_run in Hmat.
  inversion Hmat as [[Hmeta Hw0]]. clear Hmat.
  destruct (read_file (disk we) _) as [bytes |] eqn:Hread; [| discriminate].
  simpl in Hmeta.
  rewrite Dataloader_init_run in H. inversion H as [[Hr Hw1]]. clear H.
  subst w0 w1. simpl in Hr.
  exists i, name, we, bytes, meta.
  rewrite Dataloader_init_run. simpl.
  repeat split; try assumption; try reflexivity.
Qed.

(** [extract] can only return after listing the export directory. *)
Lemma extract_ok_listed self i w we :
  extract self i w = (Ok tt, we) ->
  exists present, listdir (disk w) (export_directory self) = Ok present.
Proof.
  unfold extract. intros H.
  apply bind_ok in H. destruct H as (name & w0 & Hname & H).
  apply lift_ok in Hname. destruct Hname as [_ ->].
  apply bind_ok in H. destruct H as (present & w0 & Hlist & _).
  apply on_disk_ok in Hlist. destruct Hlist as [Hlist _]. now exists present.
Qed.

Lemma listdir_ok_nonempty d p l : listdir d p = Ok l -> p <> EmptyString.
Proof.
  intros H ->. discriminate H.
Qed.

(** C3.  When an access to a session returns and the session name is an
    entry name, the name is listed in the export directory from then on,
    and a second access with the same index returns the same group index
    without opening an archive and without touching the disk: its only
    call is the load of the metadata. *)
Theorem session_extracted_once
    (self : Tarloader) (index : key) (w w1 : World) (r : Dataloader) :
  (forall name, In name (files self) -> entry_name name = true) ->
  Tarloader_getitem self index w = (Ok r, w1) ->
  exists i name present,
    position (files self) index = Ok i /\
    list_getitem (files self) i = Ok name /\
    listdir (disk w1) (export_directory self) = Ok present /\
    In name present /\
    extract self i w1 = (Ok tt, w1) /\
    Tarloader_getitem self index w1 =
    (Ok r,
     {| disk := disk w1;
        calls := (calls w1 ++
                  [MatLoad (path_join3 (export_directory self) name
                                       (name ++ "_sessInfo.mat"))])%list |}).
Proof.
  intros Hnames Hrun.
  destruct (Tarloader_getitem_ok _ _ _ Hrun)
    as (i & name & we & bytes & meta & Hpos & Hext & Hname & Hread & Hmeta & Hinit & ->).
  assert (Hentry : entry_name name = true).
  { apply Hnames. unfold list_getitem in Hname.
    destruct (_ || _); [discriminate |].
    destruct (nth_error (files self) _) eqn:Hnth; [| discriminate].
    inversion Hname; subst. eapply nth_error_In; eassumption. }
  destruct (extract_ok_listed _ _ _ Hext) as [present0 Hlist0].
  destruct (@OsFacts.read_file_listed (disk we) (export_directory self) name
              (name ++ "_sessInfo.mat") bytes Hentry
              (@OsFacts.entry_name_not_slash name "_sessInfo.mat" Hentry)
              (@listdir_ok_nonempty _ _ _ Hlist0) Hread)
    as (present & Hlist & Hin).
  set (path := path_join3 (export_directory self) name (name ++ "_sessInfo.mat")) in *.
  set (w1 := {| disk := disk we; calls := (calls we ++ [MatLoad path])%list |}).
  assert (Hskip : extract self i w1 = (Ok tt, w1)).
  { rewrite (@extract_run E self i w1 name present Hname Hlist).
    apply existsb_eqb_in in Hin. now rewrite Hin. }
  exists i, name, present. repeat split; try assumption.
  unfold Tarloader_getitem.
  erewrite bind_run by (unfold lift; rewrite Hpos; reflexivity).
  erewrite bind_run by exact Hskip.
  erewrite bind_run by (unfold lift; rewrite Hname; reflexivity).
  fold path.
  erewrite bind_run
    by (rewrite mat73_loadmat_run; simpl; rewrite Hread; simpl; rewrite Hmeta;
        reflexivity).
  rewrite Dataloader_init_run. rewrite Dataloader_init_run in Hinit.
  simpl in Hinit |- *. now rewrite Hinit.
Qed.

(** Names and positions. *)
Lemma argwhere_from_absent pos l name :
  ~ In name l -> argwhere_from pos l name = [].
Proof.
  revert pos. induction l as [| f t IH]; intros pos Hn; simpl; [reflexivity |].
  destruct (String.eqb_spec f name) as [-> | _].
  - elim Hn. now left.
  - apply IH. intros H. apply Hn. now right.
Qed.

Lemma argwhere_from_nodup l :
  forall pos n name,
    NoDup l -> nth_error l n = Some name ->
    argwhere_from pos l name = [pos + Z.of_nat n].
Proof.
  induction l as [| f t IH]; intros pos n name Hnd Hnth.
  - destruct n; discriminate.
  - inversion Hnd as [| ? ? Hnotin Hnd']; subst. destruct n as [| n]; simpl in *.
    + inversion Hnth; subst. rewrite String.eqb_refl.
      rewrite (argwhere_from_absent _ _ _ Hnotin). f_equal. lia.
    + destruct (String.eqb_spec f name) as [-> | _].
      * elim Hnotin. eapply nth_error_In; eassumption.
      * rewrite (IH (pos + 1) n name Hnd' Hnth). f_equal. lia.
Qed.

Lemma Tarloader_init_files a w self w' :
  Tarloader_init a w = (Ok self, w') ->
  exists in_tar in_export,
    listdir (disk w) (tar_directory self) = Ok in_tar /\
    listdir (disk w) (export_directory self) = Ok in_export /\
    ext self = arg_ext a /\
    files self =
    Unique.unique_str (candidate_names (ext self) (in_tar ++ in_export)%list).
Proof.
  rewrite Tarloader_init_unfold.
  destruct (_ || _); [| discriminate].
  destruct (arg_eeg a); [discriminate |]. cbv zeta.
  destruct (listdir (disk w) (filled_tar _ _)) as [in_tar |] eqn:Ht; [| discriminate].
  destruct (listdir (disk w) (filled_export _ _)) as [in_export |] eqn:He;
    [| discriminate].
  intros H. inversion H; subst; simpl. now exists in_tar, in_export.
Qed.

Lemma Tarloader_init_nodup a w self w' :
  Tarloader_init a w = (Ok self, w') -> NoDup (files self).
Proof.
  intros H. destruct (Tarloader_init_files _ _ H) as (l1 & l2 & _ & _ & _ & ->).
  apply UniqueFacts.unique_str_nodup.
Qed.

(** C5.  In a session index that [Tarloader.__init__] built, access by a
    session name and access by the position of that name in [files] are
    the same computation: same result, same calls, same disk. *)
Theorem name_access_is_position_access
    (a : TarloaderArgs) (w0 w0' : World) (self : Tarloader)
    (n : nat) (name : string) (w : World) :
  Tarloader_init a w0 = (Ok self, w0') ->
  nth_error (files self) n = Some name ->
  Tarloader_getitem self (KStr name) w = Tarloader_getitem self (KInt (Z.of_nat n)) w.
Proof.
  intros Hinit Hnth. unfold Tarloader_getitem, position, argwhere.
  rewrite (argwhere_from_nodup 0 _ (Tarloader_init_nodup _ _ Hinit) Hnth).
  reflexivity.
Qed.

(** Lookup errors of the session index.  An integer at or beyond the
    length raises [IndexError] before anything is read, and a name that
    is not in [files] raises [IndexError] with the message
    [Index <name> not found]; the world is left as it was. *)
Theorem session_lookup_errors (self : Tarloader) (w : World) :
  (forall i,
     Tarloader_len self <= i ->
     Tarloader_getitem self (KInt i) w
     = (Raise (IndexError "list index out of range"), w)) /\
  (forall name,
     ~ In name (files self) ->
     Tarloader_getitem self (KStr name) w
     = (Raise (IndexError ("Index " ++ name ++ " not found")), w)).
Proof.
  split.
  - intros i Hi. unfold Tarloader_getitem, position, extract.
    unfold bind at 1. unfold lift at 1.
    unfold bind at 1. unfold bind at 1. unfold lift at 1.
    unfold list_getitem. unfold Tarloader_len in Hi.
    assert (Hneg : (i <? 0) = false) by (apply Z.ltb_ge; lia).
    rewrite Hneg.
    assert (Hge : (Z.of_nat (List.length (files self)) <=? i) = true)
      by (apply Z.leb_le; lia).
    rewrite Hneg, Hge. reflexivity.
  - intros name Hn. unfold Tarloader_getitem, position, argwhere.
    rewrite (argwhere_from_absent 0 _ _ Hn). reflexivity.
Qed.

End SessionAccess.

(** The session of the demonstration disk: the first access extracts two
    archives, the second opens none. *)
Lemma session_extracted_once_witness :
  exists i name present,
    position (files Demo.loader0) (KInt 0) = Ok i /\
    list_getitem (files Demo.loader0) i = Ok name /\
    listdir (disk Demo.world1) (export_directory Demo.loader0) = Ok present /\
    In name present /\
    extract (E := Demo.demo) Demo.loader0 i Demo.world1 = (Ok tt, Demo.world1) /\
    Tarloader_getitem (E := Demo.demo) Demo.loader0 (KInt 0) Demo.world1 =
    (Ok Demo.groups0,
     {| disk := disk Demo.world1;
        calls := (calls Demo.world1 ++
                  [MatLoad (path_join3 (export_directory Demo.loader0) name
                                       (name ++ "_sessInfo.mat"))])%list |}).
Proof.
  apply (@session_extracted_once Demo.demo Demo.loader0 (KInt 0) Demo.world0).
  - intros name [<- | []]. reflexivity.
  - reflexivity.
Defined.

(** By name and by position on the demonstration disk. *)
Lemma name_access_is_position_access_witness :
  Tarloader_getitem (E := Demo.demo) Demo.loader0 (KStr "ratA_3") Demo.world0
  = Tarloader_getitem Demo.loader0 (KInt 0) Demo.world0.
Proof.
  apply (@name_access_is_position_access Demo.demo Demo.args0 Demo.world0 Demo.world0
           Demo.loader0 0 "ratA_3" Demo.world0).
  - reflexivity.
  - reflexivity.
Defined.

(** Past the end of the demonstration session index, and an unknown name. *)
Lemma session_lookup_errors_witness :
  Tarloader_getitem (E := Demo.demo) Demo.loader0 (KInt 1) Demo.world0
  = (Raise (IndexError "list index out of range"), Demo.world0)
  /\ Tarloader_getitem (E := Demo.demo) Demo.loader0 (KStr "ratB_1") Demo.world0
     = (Raise (IndexError "Index ratB_1 not found"), Demo.world0).
Proof.
  destruct (@session_lookup_errors Demo.demo Demo.loader0 Demo.world0) as (Hint & Hname).
  split.
  - apply Hint. unfold Tarloader_len. simpl. lia.
  - apply (Hname "ratB_1"). simpl. intros [H | []]. discriminate H.
Defined.

(** C4.  The group index does not raise [IndexError] past its end, as
    a sequence must and as the session index does.  The group index of
    the demonstration session, whose groups are 1 and 3, has length 2;
    the access at 2 parses group 3 and returns its table, and the access
    at 2 after that returns the table from the memoized file. *)
Lemma group_access_past_the_end_returns :
  Dataloader_len (E := Demo.demo) Demo.groups0 = 2
  /\ fst (Dataloader_getitem (E := Demo.demo) Demo.groups0 2 Demo.world1)
     = Ok ("ratA_3/ratA_3_sessInfo.mat",
           "group 3 with 32 samples of -1 channels from ratA_3.clu.3")
  /\ fst (Dataloader_getitem (E := Demo.demo) Demo.groups0 2
            (snd (Dataloader_getitem (E := Demo.demo) Demo.groups0 2 Demo.world1)))
     = Ok ("ratA_3/ratA_3_sessInfo.mat",
           "group 3 with 32 samples of -1 channels from ratA_3.clu.3").
Proof.
  repeat split; reflexivity.
Qed.

(* ------------------------------------------------------------------ *)
(** *** Access to a group *)

Section GroupAccess.

Context {E : Externals}.

(** The memoized path: the table is read from the file and nothing is
    parsed or written. *)
Lemma Dataloader_getitem_cached self index w :
  dl_use_disk self = true ->
  isfile (disk w) (compiled_path self index) = true ->
  Dataloader_getitem self index w =
  (rmap (pair (novel self))
        (rbind (read_file (disk w) (compiled_path self index)) read_csv),
   {| disk := disk w;
      calls := (calls w ++ [CsvRead (compiled_path self index)])%list |}).
Proof.
  intros Hd Hf. unfold Dataloader_getitem, pd_read_csv, bind, on_disk, log, lift, ret.
  rewrite Hd, Hf. simpl.
  destruct (read_file (disk w) (compiled_path self index)) as [text |]; simpl;
    [| reflexivity].
  destruct (read_csv text); reflexivity.
Qed.

(** The raw path without memoization: one call to the parser. *)
Lemma Dataloader_getitem_direct self index w :
  dl_use_disk self = false ->
  Dataloader_getitem self index w =
  (rmap (pair (novel self))
        (from_KK (disk w) (directory self) (kk_options self index)),
   {| disk := disk w;
      calls := (calls w ++ [KKParse (directory self) (kk_options self index)])%list |}).
Proof.
  intros Hd. unfold Dataloader_getitem, kkio_from_KK, bind, on_disk, log, when, ret.
  rewrite Hd. simpl.
  destruct (from_KK (disk w) (directory self) (kk_options self index)); reflexivity.
Qed.

(** The raw path with memoization: the parser is called, then the table
    is written. *)
Lemma Dataloader_getitem_fresh self index w :
  dl_use_disk self = true ->
  isfile (disk w) (compiled_path self index) = false ->
  Dataloader_getitem self index w =
  match from_KK (disk w) (directory self) (kk_options self index) with
  | Raise e =>
      (Raise e,
       {| disk := disk w;
          calls := (calls w ++ [KKParse (directory self) (kk_options self index)])%list |})
  | Ok data =>
      match write_file (disk w) (compiled_path self index) (to_csv data) with
      | Raise e =>
          (Raise e,
           {| disk := disk w;
              calls := ((calls w ++ [KKParse (directory self) (kk_options self index)])
                        ++ [CsvWrite (compiled_path self index)])%list |})
      | Ok d' =>
          (Ok (novel self, data),
           {| disk := d';
              calls := ((calls w ++ [KKParse (directory self) (kk_options self index)])
                        ++ [CsvWrite (compiled_path self index)])%list |})
      end
  end.
Proof.
  intros Hd Hf.
  unfold Dataloader_getitem, kkio_from_KK, df_to_csv, bind, on_disk, log, when, ret.
  rewrite Hd, Hf. simpl.
  destruct (from_KK (disk w) (directory self) (kk_options self index)) as [data |];
    simpl; [| reflexivity].
  destruct (write_file (disk w) (compiled_path self index) (to_csv data));
    reflexivity.
Qed.

(** C1, as the code has it.  The index of the group index is a position
    counted from 0: the access at [index] looks for the memoized file
    [COMPILED_<index+1>.csv] of the session directory and, when it has to
    parse, asks the parser for group [index + 1].  With memoization and
    the file present the access returns what the file holds; otherwise
    the first call is the parse of group [index + 1], and a returned
    table is the one the parser gave for that group. *)
Theorem group_access_is_zero_based (self : Dataloader) (index : Z) (w : World) :
  let group := index + 1 in
  let fname := path_join (directory self)
                         ("COMPILED_" ++ str_of_int group ++ ".csv") in
  let options :=
    {| groups_to_get := group;
       verify_unique_clusters := false;
       also_get_features := true;
       also_get_waveforms := dl_spk self;
       n_samples := dl_samples self;
       n_channels := dl_channels self;
       fs := 20000;
       load_memoized := false;
       save_memoized := false |} in
  (dl_use_disk self && isfile (disk w) fname = true ->
   Dataloader_getitem self index w =
   (rmap (pair (novel self)) (rbind (read_file (disk w) fname) read_csv),
    {| disk := disk w; calls := (calls w ++ [CsvRead fname])%list |})) /\
  (dl_use_disk self && isfile (disk w) fname = false ->
   (exists rest,
      calls (snd (Dataloader_getitem self index w))
      = (calls w ++ KKParse (directory self) options :: rest)%list) /\
   (forall meta data,
      fst (Dataloader_getitem self index w) = Ok (meta, data) ->
      meta = novel self /\
      from_KK (disk w) (directory self) options = Ok data)).
Proof.
  intros group fname options.
  change fname with (compiled_path self index).
  change options with (kk_options self index).
  split.
  - intros H. apply andb_true_iff in H. destruct H as [Hd Hf].
    now apply Dataloader_getitem_cached.
  - intros H. destruct (dl_use_disk self) eqn:Hd.
    + simpl in H. rewrite (Dataloader_getitem_fresh _ _ _ Hd H).
      destruct (from_KK (disk w) (directory self) (kk_options self index)) as [data | e].
      * destruct (write_file (disk w) (compiled_path self index) (to_csv data));
          simpl; (split; [| intros meta data' Heq]).
        -- exists [CsvWrite (compiled_path self index)]. now rewrite <- app_assoc.
        -- inversion Heq; subst. now split.
        -- exists [CsvWrite (compiled_path self index)]. now rewrite <- app_assoc.
        -- discriminate.
      * simpl. split; [now exists [] | discriminate].
    + rewrite (Dataloader_getitem_direct _ _ _ Hd). simpl. split; [now exists [] |].
      intros meta data Heq.
      destruct (from_KK (disk w) (directory self) (kk_options self index));
        [| discriminate].
      inversion Heq; subst. now split.
Qed.

(** The memoized access against the direct parse.  Take a group index
    with memoization and a world where the memoized file of the index is
    absent.  If the access returns, the table it returns is the one that
    the same index gives on the same world with memoization disabled,
    with the metadata of the index; and the next access takes the
    memoized path, where its only call reads the file, and returns
    [read_csv] of [to_csv] of that table: what pandas makes of the text
    it wrote.  Nothing in the module makes the reloaded table equal to
    the parsed one. *)
Theorem memoized_access_reloads_direct_parse
    (self : Dataloader) (index : Z) (w w1 : World)
    (meta : Metadata) (data : Table) :
  dl_use_disk self = true ->
  isfile (disk w) (compiled_path self index) = false ->
  Dataloader_getitem self index w = (Ok (meta, data), w1) ->
  meta = novel self /\
  Dataloader_getitem (with_use_disk false self) index w
  = (Ok (novel self, data),
     {| disk := disk w;
        calls := (calls w ++ [KKParse (directory self) (kk_options self index)])%list |}) /\
  read_file (disk w1) (compiled_path self index) = Ok (to_csv data) /\
  Dataloader_getitem self index w1
  = (rmap (pair (novel self)) (read_csv (to_csv data)),
     {| disk := disk w1;
        calls := (calls w1 ++ [CsvRead (compiled_path self index)])%list |}).
Proof.
  intros Hd Hf Hrun.
  rewrite (Dataloader_getitem_fresh _ _ _ Hd Hf) in Hrun.
  destruct (from_KK (disk w) (directory self) (kk_options self index))
    as [parsed |] eqn:Hparse; [| discriminate].
  destruct (write_file (disk w) (compiled_path self index) (to_csv parsed))
    as [d' |] eqn:Hwrite; [| discriminate].
  inversion Hrun; subst; clear Hrun.
  destruct (OsFacts.read_after_write _ _ _ Hwrite) as [Hread Hfile].
  split; [reflexivity |]. split; [| split].
  - rewrite Dataloader_getitem_direct by reflexivity.
    change (directory (with_use_disk false self)) with (directory self).
    change (kk_options (with_use_disk false self) index) with (kk_options self index).
    rewrite Hparse. reflexivity.
  - exact Hread.
  - rewrite Dataloader_getitem_cached by assumption.
    simpl. rewrite Hread. reflexivity.
Qed.

(** C9.  The memoized file of an access is named after the session
    directory and the index alone.  So for two group indexes of one
    directory, whatever their [spk], [samples], [channels] and metadata:
    when the second memoizes and the file is there, its access is the
    read of that file and nothing else; and a table that an access of the
    first has parsed and persisted is what the second gets back from the
    file, without a parse under its own configuration. *)
Theorem memoized_table_ignores_configuration
    (first second : Dataloader) (index : Z) (w : World) :
  directory first = directory second ->
  dl_use_disk second = true ->
  compiled_path first index = compiled_path second index /\
  (isfile (disk w) (compiled_path first index) = true ->
   Dataloader_getitem second index w
   = (rmap (pair (novel second))
           (rbind (read_file (disk w) (compiled_path first index)) read_csv),
      {| disk := disk w;
         calls := (calls w ++ [CsvRead (compiled_path first index)])%list |})) /\
  (forall meta data w1,
     dl_use_disk first = true ->
     isfile (disk w) (compiled_path first index) = false ->
     Dataloader_getitem first index w = (Ok (meta, data), w1) ->
     Dataloader_getitem second index w1
     = (rmap (pair (novel second)) (read_csv (to_csv data)),
        {| disk := disk w1;
           calls := (calls w1 ++ [CsvRead (compiled_path first index)])%list |})).
Proof.
  intros Hdir Hd2.
  assert (Hpath : compiled_path first index = compiled_path second index).
  { unfold compiled_path. now rewrite Hdir. }
  split; [exact Hpath |]. split.
  - intros Hf. rewrite Hpath in Hf |- *. now apply Dataloader_getitem_cached.
  - intros meta data w1 Hd1 Hf Hrun.
    rewrite (Dataloader_getitem_fresh _ _ _ Hd1 Hf) in Hrun.
    destruct (from_KK (disk w) (directory first) (kk_options first index))
      as [parsed |]; [| discriminate].
    destruct (write_file (disk w) (compiled_path first index) (to_csv parsed))
      as [d' |] eqn:Hwrite; [| discriminate].
    inversion Hrun; subst; clear Hrun.
    destruct (OsFacts.read_after_write _ _ _ Hwrite) as [Hread Hfile].
    rewrite Hpath in Hread, Hfile |- *.
    rewrite Dataloader_getitem_cached by assumption.
    simpl. rewrite Hread. reflexivity.
Qed.

End GroupAccess.

(** The first position of the demonstration group index is served from
    group 1. *)
Lemma group_access_is_zero_based_witness :
  exists rest,
    calls (snd (Dataloader_getitem (E := Demo.demo) Demo.groups0 0 Demo.world1))
    = (calls Demo.world1
       ++ KKParse "out/ratA_3"
            {| groups_to_get := 1;
               verify_unique_clusters := false;
               also_get_features := true;
               also_get_waveforms := true;
               n_samples := 32;
               n_channels := -1;
               fs := 20000;
               load_memoized := false;
               save_memoized := false |} :: rest)%list.
Proof.
  destruct (@group_access_is_zero_based Demo.demo Demo.groups0 0 Demo.world1)
    as [_ H].
  destruct (H eq_refl) as [Hcalls _]. exact Hcalls.
Defined.

(** C1 as stated fails: 1 is a group id of the demonstration session, and
    the access with key 1 asks the parser for group 2 and fails, since the
    session has groups 1 and 3 only; it does not return the table of
    group 1. *)
Lemma group_key_one_is_group_two :
  1 <= 1 <= Dataloader_len (E := Demo.demo) Demo.groups0
  /\ compiled_path (E := Demo.demo) Demo.groups0 1 = "out/ratA_3/COMPILED_2.csv"
  /\ groups_to_get (kk_options (E := Demo.demo) Demo.groups0 1) = 2
  /\ fst (Dataloader_getitem (E := Demo.demo) Demo.groups0 1 Demo.world1)
     = Raise (LibraryError "kkpandas" "no such group")
  /\ fst (Dataloader_getitem (E := Demo.demo) Demo.groups0 1 Demo.world1)
     <> rmap (pair (novel Demo.groups0))
             (from_KK (disk Demo.world1) "out/ratA_3"
                {| groups_to_get := 1;
                   verify_unique_clusters := false;
                   also_get_features := true;
                   also_get_waveforms := true;
                   n_samples := 32;
                   n_channels := -1;
                   fs := 20000;
                   load_memoized := false;
                   save_memoized := false |}).
Proof.
  split; [unfold Dataloader_len; simpl; lia |].
  split; [reflexivity |]. split; [reflexivity |]. split; [reflexivity |].
  discriminate.
Qed.

(** Group 1 of the demonstration session: parsed and persisted, then read
    back, against the direct parse. *)
Lemma memoized_access_reloads_direct_parse_witness :
  Dataloader_getitem (E := Demo.demo) (with_use_disk false Demo.groups0) 0 Demo.world1
  = (Ok (novel Demo.groups0,
         "group 1 with 32 samples of -1 channels from ratA_3.clu.1"),
     {| disk := disk Demo.world1;
        calls := (calls Demo.world1
                  ++ [KKParse (directory Demo.groups0)
                              (kk_options Demo.groups0 0)])%list |})
  /\ Dataloader_getitem (E := Demo.demo) Demo.groups0 0 Demo.world2
     = (Ok (novel Demo.groups0,
            "group 1 with 32 samples of -1 channels from ratA_3.clu.1"),
        {| disk := disk Demo.world2;
           calls := (calls Demo.world2
                     ++ [CsvRead (compiled_path Demo.groups0 0)])%list |}).
Proof.
  destruct (@memoized_access_reloads_direct_parse Demo.demo Demo.groups0 0
              Demo.world1 Demo.world2
              "ratA_3/ratA_3_sessInfo.mat"
              "group 1 with 32 samples of -1 channels from ratA_3.clu.1"
              eq_refl eq_refl eq_refl) as (_ & Hdirect & _ & Hreload).
  split; [exact Hdirect | exact Hreload].
Defined.

(** The table that the demonstration group index persisted with
    waveforms of 32 samples is what an index without waveforms gets. *)
Lemma memoized_table_ignores_configuration_witness :
  Dataloader_getitem (E := Demo.demo) Demo.groups0_plain 0 Demo.world2
  = (Ok ("other metadata",
         "group 1 with 32 samples of -1 channels from ratA_3.clu.1"),
     {| disk := disk Demo.world2;
        calls := (calls Demo.world2 ++ [CsvRead "out/ratA_3/COMPILED_1.csv"])%list |}).
Proof.
  destruct (@memoized_table_ignores_configuration Demo.demo
              Demo.groups0 Demo.groups0_plain 0 Demo.world1 eq_refl eq_refl)
    as (_ & _ & H).
  exact (H "ratA_3/ratA_3_sessInfo.mat"
           "group 1 with 32 samples of -1 channels from ratA_3.clu.1"
           Demo.world2 eq_refl eq_refl eq_refl).
Defined.

(* ------------------------------------------------------------------ *)
(** *** Lengths *)

Section Lengths.

Context {E : Externals}.



(** C6.  When a session index is built, both directories have been
    listed, and with [names] the canonical names of the listed entries
    that match the session pattern, the length of the index is the number
    of distinct elements of [names]; [files] holds exactly those names,
    in strictly increasing order, and is the only list that does. *)
Theorem session_count_is_distinct_names
    (a : TarloaderArgs) (w w' : World) (self : Tarloader) :
  Tarloader_init a w = (Ok self, w') ->
  exists in_tar in_export,
    listdir (disk w) (tar_directory self) = Ok in_tar /\
    listdir (disk w) (export_directory self) = Ok in_export /\
    let names :=
      map (session_name (ext self))
          (filter (search session_re) (in_tar ++ in_export)%list) in
    Tarloader_len self = Z.of_nat (List.length (nodup string_dec names)) /\
    (forall name, In name (files self) <-> In name names) /\
    StronglySorted Unique.str_lt (files self) /\
    (forall l,
       StronglySorted Unique.str_lt l ->
       (forall name, In name l <-> In name names) ->
       l = files self).
Proof.
  intros Hinit.
  destruct (Tarloader_init_files _ _ Hinit) as (in_tar & in_export & Ht & He & _ & Hfiles).
  exists in_tar, in_export. split; [exact Ht |]. split; [exact He |].
  cbv zeta. fold (candidate_names (ext self) (in_tar ++ in_export)%list).
  set (names := candidate_names (ext self) (in_tar ++ in_export)%list) in *.
  assert (Hin : forall name, In name (files self) <-> In name names).
  { intros name. rewrite Hfiles. apply UniqueFacts.unique_str_in. }
  assert (Hsorted : StronglySorted Unique.str_lt (files self)).
  { rewrite Hfiles. apply UniqueFacts.unique_str_sorted. }
  split; [| split; [exact Hin | split; [exact Hsorted |]]].
  - unfold Tarloader_len. f_equal. rewrite Hfiles.
    apply UniqueFacts.unique_str_length.
  - intros l Hl Hl_in. apply (UniqueFacts.str_sorted_ext Hl Hsorted).
    intros name. now rewrite Hl_in, Hin.
Qed.

End Lengths.



(** Three group numbers, the last two of which have the same double:
    the group index has length 2. *)
Lemma large_group_numbers_merge :
  rbind (listdir (disk Demo.world_large) "s") group_numbers
  = Ok [1; 9223372036854775808; 9223372036854775809]
  /\ rmap (fun self => Dataloader_len self)
       (fst (Dataloader_init (E := Demo.demo) "s" "m" false true 32 (-1) true
               Demo.world_large)) = Ok 2.
Proof. split; vm_compute; reflexivity. Qed.

(** The session index of the demonstration disk. *)
Lemma session_count_is_distinct_names_witness :
  exists in_tar in_export,
    listdir (disk Demo.world0) (tar_directory Demo.loader0) = Ok in_tar /\
    listdir (disk Demo.world0) (export_directory Demo.loader0) = Ok in_export /\
    let names :=
      map (session_name (ext Demo.loader0))
          (filter (search session_re) (in_tar ++ in_export)%list) in
    Tarloader_len Demo.loader0 = Z.of_nat (List.length (nodup string_dec names)) /\
    (forall name, In name (files Demo.loader0) <-> In name names) /\
    StronglySorted Unique.str_lt (files Demo.loader0) /\
    (forall l,
       StronglySorted Unique.str_lt l ->
       (forall name, In name l <-> In name names) ->
       l = files Demo.loader0).
Proof.
  apply (@session_count_is_distinct_names Demo.args0 Demo.world0 Demo.world0 Demo.loader0).
  reflexivity.
Defined.

(* ================================================================== *)
(** ** Further properties: canonical session names *)

Module NamesFacts.

Import Str Names Dataloaders.

Lemma strip_prefix_app p s rest :
  strip_prefix p s = Some rest -> s = (p ++ rest)%string.
Proof.
  revert s. induction p as [| a p IH]; intros s; simpl.
  - intros H. now inversion H.
  - destruct s as [| b s]; [discriminate |].
    destruct (Ascii.eqb_spec a b) as [-> | _]; [| discriminate].
    intros H. now rewrite (IH _ H).
Qed.

Lemma starts_with_self p rest : starts_with p (p ++ rest) = true.
Proof.
  unfold starts_with. induction p as [| a p IH]; simpl; [reflexivity |].
  now rewrite Ascii.eqb_refl.
Qed.

(** A prefix of [u ++ b] that is no longer than [u] is a prefix of [u]. *)
Lemma starts_with_app_short p :
  forall u b, (String.length p <= String.length u)%nat ->
              starts_with p (u ++ b) = starts_with p u.
Proof.
  unfold starts_with. induction p as [| a p IH]; intros u b Hlen; simpl;
    [reflexivity |].
  destruct u as [| c u]; simpl in *; [lia |].
  destruct (Ascii.eqb a c); [| reflexivity].
  apply IH. lia.
Qed.

Lemma starts_with_app_grow p u b :
  starts_with p u = true -> starts_with p (u ++ b) = true.
Proof.
  unfold starts_with. revert u. induction p as [| a p IH]; intros u; simpl;
    [reflexivity |].
  destruct u as [| c u]; simpl; [discriminate |].
  destruct (Ascii.eqb a c); [apply IH | discriminate].
Qed.

Lemma length_append a b :
  String.length (a ++ b) = (String.length a + String.length b)%nat.
Proof. induction a as [| c a IH]; simpl; [reflexivity | now rewrite IH]. Qed.

(** Skipping counts characters, whatever they are. *)
Lemma remove_from_skip old x b :
  remove_from old (String.length x) (x ++ b) = remove_from old O b.
Proof.
  induction x as [| c x IH]; simpl; [reflexivity | exact IH].
Qed.

Lemma remove_all_empty_old s : remove_all EmptyString s = s.
Proof.
  unfold remove_all. induction s as [| c s IH]; simpl; [reflexivity |].
  now rewrite IH.
Qed.

(** An occurrence at the cursor is dropped whole. *)
Lemma remove_all_at_occurrence old b :
  remove_all old (old ++ b) = remove_all old b.
Proof.
  destruct old as [| c o]; [reflexivity |].
  unfold remove_all.
  change ((String c o ++ b)%string) with (String c (o ++ b)).
  cbn [remove_from].
  change (String c (o ++ b)) with ((String c o ++ b)%string).
  rewrite starts_with_self. cbn [String.length].
  apply remove_from_skip.
Qed.

Lemma remove_all_step old c s :
  starts_with old (String c s) = false ->
  remove_all old (String c s) = String c (remove_all old s).
Proof.
  unfold remove_all. cbn [remove_from]. now intros ->.
Qed.

Lemma remove_all_free old s : free old s = true -> remove_all old s = s.
Proof.
  induction s as [| c s IH]; [reflexivity |].
  cbn [free]. intros H. apply andb_true_iff in H. destruct H as [Hc Hs].
  apply negb_true_iff in Hc. rewrite (remove_all_step _ _ _ Hc), (IH Hs).
  reflexivity.
Qed.

Lemma remove_all_clean old s b :
  clean old s = true ->
  remove_all old (s ++ old ++ b) = (s ++ remove_all old b)%string.
Proof.
  induction s as [| c s IH].
  - intros _. cbn [String.append]. apply remove_all_at_occurrence.
  - cbn [clean]. intros H. apply andb_true_iff in H. destruct H as [Hc Hs].
    apply negb_true_iff in Hc.
    change ((String c s ++ old ++ b)%string) with (String c (s ++ old ++ b)).
    rewrite remove_all_step.
    + now rewrite (IH Hs).
    + change (String c (s ++ old ++ b)) with ((String c s ++ old ++ b)%string).
      rewrite <- OsFacts.append_assoc, starts_with_app_short; [exact Hc |].
      rewrite length_append. lia.
Qed.

Lemma clean_free old s : clean old s = true -> free old s = true.
Proof.
  induction s as [| c s IH]; [reflexivity |].
  cbn [clean free]. intros H. apply andb_true_iff in H. destruct H as [Hc Hs].
  rewrite (IH Hs), andb_true_r. apply negb_true_iff. apply negb_true_iff in Hc.
  destruct (starts_with old (String c s)) eqn:E; [| reflexivity].
  now rewrite (starts_with_app_grow _ _ old E) in Hc.
Qed.

Lemma remove_all_clean_end old s :
  clean old s = true -> remove_all old (s ++ old) = s.
Proof.
  intros H. rewrite <- (OsFacts.append_empty_r old) at 2.
  rewrite (remove_all_clean _ _ EmptyString H).
  unfold remove_all. simpl. apply OsFacts.append_empty_r.
Qed.

(** How [str.replace(old, '')] scans: it drops an occurrence at the
    cursor and goes on behind it, or keeps the character at the cursor. *)
Lemma remove_all_scan old (P : string -> string -> Prop) :
  old <> EmptyString ->
  P EmptyString EmptyString ->
  (forall rest r, P rest r -> P (old ++ rest)%string r) ->
  (forall c s r, starts_with old (String c s) = false ->
                 P s r -> P (String c s) (String c r)) ->
  forall s, P s (remove_all old s).
Proof.
  intros Hold Hnil Hdrop Hkeep s.
  assert (H : forall n s, (String.length s <= n)%nat -> P s (remove_all old s)).
  { clear s. induction n as [| n IH]; intros s Hlen.
    - destruct s; [exact Hnil | simpl in Hlen; lia].
    - destruct s as [| c s]; [exact Hnil |].
      destruct (starts_with old (String c s)) eqn:Hs.
      + unfold starts_with in Hs.
        destruct (strip_prefix old (String c s)) as [rest |] eqn:Hp; [| discriminate].
        apply strip_prefix_app in Hp. rewrite Hp, remove_all_at_occurrence.
        apply Hdrop, IH.
        apply (f_equal String.length) in Hp. rewrite length_append in Hp.
        destruct old as [| a o]; [now elim Hold |]. simpl in Hp, Hlen. lia.
      + rewrite (remove_all_step _ _ _ Hs). apply Hkeep; [exact Hs |].
        apply IH. simpl in Hlen. lia. }
  exact (H (String.length s) s (le_n _)).
Qed.

Lemma digits_app a b : digits (a ++ b) = (digits a ++ digits b)%list.
Proof.
  unfold digits. induction a as [| c a IH]; simpl; [reflexivity |].
  destruct (is_digit c); simpl; now rewrite IH.
Qed.

Lemma has_char_app c a b : has_char c (a ++ b) = has_char c a || has_char c b.
Proof.
  induction a as [| x a IH]; simpl; [reflexivity |].
  now rewrite IH, orb_assoc.
Qed.

(** Removing a word without digits keeps the digits of a name. *)
Lemma digits_remove_all old s :
  digits old = [] -> digits (remove_all old s) = digits s.
Proof.
  intros Hold. destruct old as [| a o]; [now rewrite remove_all_empty_old |].
  apply (@remove_all_scan (String a o) (fun s r => digits r = digits s)).
  - discriminate.
  - reflexivity.
  - intros rest r Hr. now rewrite digits_app, Hold.
  - intros c s' r _ Hr. unfold digits in *. simpl.
    destruct (is_digit c); simpl; now rewrite Hr.
Qed.

(** Removing a word brings no character in. *)
Lemma has_char_remove_all c old s :
  has_char c (remove_all old s) = true -> has_char c s = true.
Proof.
  destruct old as [| a o]; [now rewrite remove_all_empty_old |].
  apply (@remove_all_scan (String a o)
           (fun s r => has_char c r = true -> has_char c s = true)).
  - discriminate.
  - trivial.
  - intros rest r Hr H. rewrite has_char_app, (Hr H). apply orb_true_r.
  - intros x s' r _ Hr. simpl. intros H. apply orb_true_iff in H.
    destruct H as [H | H]; [now rewrite H | rewrite (Hr H); apply orb_true_r].
Qed.

(** The file name of an archive of a session, of its spike archive, of
    its eeg archive, and the name of its extracted directory all have the
    session name as canonical name, for a tidy name. *)
Theorem archives_share_session_name (ext n : string) :
  tidy ext n = true ->
  session_name ext n = n
  /\ session_name ext (n ++ ext) = n
  /\ session_name ext (n ++ "_spk" ++ ext) = n
  /\ session_name ext (n ++ "_eeg" ++ ext) = n.
Proof.
  unfold tidy. intros H.
  repeat (apply andb_true_iff in H; destruct H as [H ?]).
  match goal with
  | H1 : clean "_spk" n = true, H2 : clean "_eeg" n = true,
    H3 : free "_eeg" (n ++ "_spk") = true, H4 : clean ext (n ++ "_eeg") = true,
    H5 : clean ext (n ++ "_spk") = true |- _ =>
      rename H1 into Hspk; rename H2 into Heeg; rename H3 into Hmix;
      rename H4 into Hext_eeg; rename H5 into Hext_spk
  end.
  assert (Hbare : remove_all "_spk" (remove_all "_eeg" n) = n).
  { rewrite (remove_all_free _ _ (clean_free _ _ Heeg)).
    apply remove_all_free, clean_free, Hspk. }
  unfold session_name. split; [| split; [| split]].
  - rewrite (remove_all_free _ _ (clean_free _ _ H)). exact Hbare.
  - rewrite (remove_all_clean_end _ _ H). exact Hbare.
  - rewrite <- OsFacts.append_assoc, (remove_all_clean_end _ _ Hext_spk).
    rewrite (remove_all_free _ _ Hmix). apply remove_all_clean_end, Hspk.
  - rewrite <- OsFacts.append_assoc, (remove_all_clean_end _ _ Hext_eeg).
    rewrite (remove_all_clean_end _ _ Heeg).
    apply remove_all_free, clean_free, Hspk.
Qed.

End NamesFacts.

(** The four names of the demonstration session. *)
Lemma archives_share_session_name_witness :
  session_name ".tar.gz" "ratA_3" = "ratA_3"
  /\ session_name ".tar.gz" ("ratA_3" ++ ".tar.gz") = "ratA_3"
  /\ session_name ".tar.gz" ("ratA_3" ++ "_spk" ++ ".tar.gz") = "ratA_3"
  /\ session_name ".tar.gz" ("ratA_3" ++ "_eeg" ++ ".tar.gz") = "ratA_3".
Proof.
  apply (@NamesFacts.archives_share_session_name ".tar.gz" "ratA_3").
  reflexivity.
Defined.

(* ================================================================== *)
(** ** Further properties: the session index *)

Section SessionIndexMore.

Context {E : Externals}.

Import Names NamesFacts.

(** Every session name of a session index keeps the digits of a listed
    file name it comes from, when the extension has no digit; so, on a
    disk whose listed names have no slash, every session name is the name
    of a directory entry: not empty, not [.], without a slash. *)
Theorem session_names_are_entry_names
    (a : TarloaderArgs) (w w' : World) (self : Tarloader) :
  Tarloader_init a w = (Ok self, w') ->
  digits (arg_ext a) = [] ->
  (forall l,
     listdir (disk w) (tar_directory self) = Ok l
     \/ listdir (disk w) (export_directory self) = Ok l ->
     Forall (fun f => has_char "/" f = false) l) ->
  forall name,
    In name (files self) -> entry_name name = true /\ digits name <> [].
Proof.
  intros Hinit Hext Hslash name Hname.
  destruct (Tarloader_init_files _ _ Hinit)
    as (in_tar & in_export & Ht & He & Hext' & Hfiles).
  rewrite Hfiles, UniqueFacts.unique_str_in in Hname.
  unfold candidate_names in Hname. apply in_map_iff in Hname.
  destruct Hname as (f & Hf & Hin). apply filter_In in Hin.
  destruct Hin as [Hlisted Hmatch].
  assert (Hdigits : digits name = digits f).
  { rewrite <- Hf. unfold session_name.
    rewrite !digits_remove_all; try reflexivity. now rewrite Hext'. }
  assert (Hsome : digits name <> []).
  { rewrite Hdigits. apply PatternFacts.session_re_spec in Hmatch.
    destruct Hmatch as (p & x & d & q & Hchars & _ & Hd).
    unfold digits. rewrite Hchars, filter_app. simpl.
    destruct (is_digit x); simpl; rewrite Hd;
      intros H; apply app_eq_nil in H; destruct H as [_ H]; discriminate H. }
  split; [| exact Hsome].
  unfold entry_name, is_component.
  destruct (String.eqb_spec name EmptyString) as [-> | _]; [now elim Hsome |].
  destruct (String.eqb_spec name ".") as [-> | _]; [now elim Hsome |].
  simpl. apply negb_true_iff.
  destruct (has_char "/" name) eqn:Hs; [| reflexivity].
  rewrite <- Hf in Hs. unfold session_name in Hs.
  do 3 apply has_char_remove_all in Hs.
  assert (Hno : has_char "/" f = false).
  { apply in_app_or in Hlisted. destruct Hlisted as [H | H].
    - specialize (Hslash in_tar (or_introl Ht)).
      rewrite Forall_forall in Hslash. now apply Hslash.
    - specialize (Hslash in_export (or_intror He)).
      rewrite Forall_forall in Hslash. now apply Hslash. }
  congruence.
Qed.

(** What an integer access does depends on the integer only through the
    element of [files] it selects. *)
Lemma Tarloader_getitem_by_element self i j w :
  list_getitem (files self) i = list_getitem (files self) j ->
  Tarloader_getitem self (KInt i) w = Tarloader_getitem self (KInt j) w.
Proof.
  intros H. unfold Tarloader_getitem, extract, position.
  unfold bind at 1. unfold lift at 1.
  unfold bind at 7. unfold lift at 4.
  rewrite H. reflexivity.
Qed.

(** A negative position counts from the end of the session index, as in
    a Python list: [-k] is the position [len - k] for [k] from 1 to the
    length, and below [-len] the access raises [IndexError] before
    anything is read. *)
Theorem negative_position_counts_from_the_end
    (self : Tarloader) (k : Z) (w : World) :
  (1 <= k <= Tarloader_len self ->
   Tarloader_getitem self (KInt (- k)) w
   = Tarloader_getitem self (KInt (Tarloader_len self - k)) w) /\
  (Tarloader_len self < k ->
   Tarloader_getitem self (KInt (- k)) w
   = (Raise (IndexError "list index out of range"), w)).
Proof.
  unfold Tarloader_len. split; intros Hk.
  - apply Tarloader_getitem_by_element. unfold list_getitem.
    assert (H1 : (- k <? 0) = true) by (apply Z.ltb_lt; lia).
    assert (H2 : (Z.of_nat (List.length (files self)) - k <? 0) = false)
      by (apply Z.ltb_ge; lia).
    rewrite H1, H2.
    replace (- k + Z.of_nat (List.length (files self)))
      with (Z.of_nat (List.length (files self)) - k) by lia.
    reflexivity.
  - unfold Tarloader_getitem, position, extract.
    unfold bind at 1. unfold lift at 1.
    unfold bind at 1. unfold bind at 1. unfold lift at 1.
    unfold list_getitem.
    assert (H1 : (- k <? 0) = true) by (apply Z.ltb_lt; lia).
    assert (H2 : (- k + Z.of_nat (List.length (files self)) <? 0) = true)
      by (apply Z.ltb_lt; lia).
    rewrite H1, H2. reflexivity.
Qed.

(** The positions that [argwhere] returns hold the name looked for. *)
Lemma argwhere_from_sound l :
  forall pos name i,
    In i (argwhere_from pos l name) ->
    pos <= i < pos + Z.of_nat (List.length l)
    /\ nth_error l (Z.to_nat (i - pos)) = Some name.
Proof.
  induction l as [| f t IH]; intros pos name i Hin; simpl in *; [now elim Hin |].
  assert (Htail : In i (argwhere_from (pos + 1) t name) ->
                  pos <= i < pos + Z.pos (Pos.of_succ_nat (List.length t))
                  /\ nth_error (f :: t) (Z.to_nat (i - pos)) = Some name).
  { intros H. destruct (IH _ _ _ H) as [Hr Hn]. split; [lia |].
    replace (Z.to_nat (i - pos)) with (S (Z.to_nat (i - (pos + 1)))) by lia.
    exact Hn. }
  destruct (String.eqb_spec f name) as [-> | _]; [| now apply Htail].
  destruct Hin as [<- | Hin]; [| now apply Htail].
  split; [lia |]. now rewrite Z.sub_diag.
Qed.

(** Whatever [files] holds, a name that is found resolves to a position
    inside the list that holds this very name, so that the access by name
    never fails on the list index; and a name resolves exactly when it is
    in [files]. *)
Theorem position_of_name_is_sound (files : list string) (name : string) :
  (forall i, position files (KStr name) = Ok i ->
             0 <= i < Z.of_nat (List.length files)
             /\ list_getitem files i = Ok name) /\
  (is_ok (position files (KStr name)) = true <-> In name files).
Proof.
  split.
  - intros i Hpos. unfold position, argwhere in Hpos.
    destruct (argwhere_from 0 files name) as [| i0 rest] eqn:Ha; [discriminate |].
    inversion Hpos; subst i0; clear Hpos.
    destruct (@argwhere_from_sound files 0 name i) as [Hr Hn];
      [rewrite Ha; now left |].
    split; [lia |]. unfold list_getitem.
    assert (H1 : (i <? 0) = false) by (apply Z.ltb_ge; lia).
    assert (H2 : (Z.of_nat (List.length files) <=? i) = false)
      by (apply Z.leb_gt; lia).
    rewrite H1. rewrite H1, H2. simpl.
    rewrite Z.sub_0_r in Hn. now rewrite Hn.
  - unfold position, argwhere. split.
    + intros Hok. destruct (argwhere_from 0 files name) as [| i rest] eqn:Ha;
        [discriminate |].
      destruct (@argwhere_from_sound files 0 name i) as [_ Hn];
        [rewrite Ha; now left |].
      eapply nth_error_In; eassumption.
    + intros Hin. destruct (argwhere_from 0 files name) as [| i rest] eqn:Ha;
        [| reflexivity].
      exfalso. clear - Hin Ha. revert Ha. generalize 0.
      induction files as [| f t IH]; intros pos Ha; simpl in *; [now elim Hin |].
      destruct (String.eqb_spec f name) as [-> | Hne]; [discriminate |].
      destruct Hin as [-> | Hin]; [now elim Hne | exact (IH Hin _ Ha)].
Qed.

(** The group index that a session access returns carries the
    configuration of the session index: it is rooted at the directory of
    the session inside the export directory, it has the [eeg], [spk],
    [samples], [channels] and [use_disk] of the session index, and its
    metadata is what [mat73.loadmat] gave for the [_sessInfo.mat] file of
    that directory. *)
Theorem session_access_passes_configuration
    (self : Tarloader) (index : key) (w w1 : World) (r : Dataloader) :
  Tarloader_getitem self index w = (Ok r, w1) ->
  exists name bytes,
    In name (files self) /\
    directory r = path_join (export_directory self) name /\
    read_file (disk w1)
      (path_join3 (export_directory self) name (name ++ "_sessInfo.mat")) = Ok bytes /\
    loadmat bytes = Ok (novel r) /\
    dl_eeg r = eeg self /\ dl_spk r = spk self /\
    dl_samples r = samples self /\ dl_channels r = channels self /\
    dl_use_disk r = use_disk self.
Proof.
  intros Hrun.
  destruct (Tarloader_getitem_ok _ _ _ Hrun)
    as (i & name & we & bytes & meta & _ & _ & Hname & Hread & Hmeta & Hinit & ->).
  exists name, bytes.
  assert (Hin : In name (files self)).
  { unfold list_getitem in Hname. destruct (_ || _); [discriminate |].
    destruct (nth_error (files self) _) eqn:Hnth; [| discriminate].
    inversion Hname; subst. eapply nth_error_In; eassumption. }
  rewrite Dataloader_init_run in Hinit. simpl in Hinit.
  destruct (listdir (disk we) _); [| discriminate]. simpl in Hinit.
  destruct (group_numbers _); [| discriminate]. simpl in Hinit.
  inversion Hinit; subst r; simpl.
  repeat split; assumption.
Qed.

End SessionIndexMore.

(** The session index of the demonstration disk. *)
Lemma session_names_are_entry_names_witness :
  entry_name "ratA_3" = true /\ Names.digits "ratA_3" <> [].
Proof.
  apply (@session_names_are_entry_names Demo.args0 Demo.world0 Demo.world0
           Demo.loader0 eq_refl eq_refl).
  - intros l [H | H]; inversion H; subst; repeat constructor.
  - left. reflexivity.
Defined.

(** The last session of the demonstration index is its only session. *)
Lemma negative_position_counts_from_the_end_witness :
  Tarloader_getitem (E := Demo.demo) Demo.loader0 (KInt (- (1))) Demo.world0
  = Tarloader_getitem Demo.loader0 (KInt (Tarloader_len Demo.loader0 - 1)) Demo.world0.
Proof.
  destruct (@negative_position_counts_from_the_end Demo.demo Demo.loader0 1 Demo.world0)
    as [H _].
  apply H. unfold Tarloader_len. simpl. lia.
Defined.

(** The name of the demonstration session resolves to position 0. *)
Lemma position_of_name_is_sound_witness :
  0 <= 0 < Z.of_nat (List.length ["ratA_3"])
  /\ list_getitem ["ratA_3"] 0 = Ok "ratA_3".
Proof.
  destruct (position_of_name_is_sound ["ratA_3"] "ratA_3") as [H _].
  apply (H 0). reflexivity.
Defined.

(** The group index of the demonstration session. *)
Lemma session_access_passes_configuration_witness :
  exists name bytes,
    In name (files Demo.loader0) /\
    directory Demo.groups0 = path_join (export_directory Demo.loader0) name /\
    read_file (disk Demo.world1)
      (path_join3 (export_directory Demo.loader0) name (name ++ "_sessInfo.mat"))
    = Ok bytes /\
    loadmat (Externals := Demo.demo) bytes = Ok (novel Demo.groups0) /\
    dl_eeg Demo.groups0 = eeg Demo.loader0 /\ dl_spk Demo.groups0 = spk Demo.loader0 /\
    dl_samples Demo.groups0 = samples Demo.loader0 /\
    dl_channels Demo.groups0 = channels Demo.loader0 /\
    dl_use_disk Demo.groups0 = use_disk Demo.loader0.
Proof.
  apply (@session_access_passes_configuration Demo.demo Demo.loader0 (KInt 0)
           Demo.world0 Demo.world1 Demo.groups0).
  reflexivity.
Defined.

(** The filter of [Tarloader.__init__] keeps a listed name exactly when
    the name holds, anywhere, a letter, an underscore and a digit in a
    row: the pattern is searched, not anchored, and its optional
    [.tar.gz] decides nothing. *)
Theorem session_filter_meaning (f : string) :
  search session_re f = true <->
  exists p a d q,
    list_ascii_of_string f = (p ++ a :: "_"%char :: d :: q)%list /\
    is_alpha a = true /\ is_digit d = true.
Proof. apply PatternFacts.session_re_spec. Qed.

(** A name that is no archive and no session directory passes the
    filter. *)
Lemma session_filter_meaning_witness :
  search session_re "notes_2024.txt" = true.
Proof.
  apply session_filter_meaning.
  exists (list_ascii_of_string "note"), "s"%char, "2"%char,
         (list_ascii_of_string "024.txt").
  repeat split.
Defined.

(* ================================================================== *)
(** ** Further properties: construction in place, and extraction *)

Section ExtractionMore.

Context {E : Externals}.

Import Traces.

Lemma candidate_names_twice ext l name :
  In name (candidate_names ext (l ++ l)%list) <-> In name (candidate_names ext l).
Proof.
  unfold candidate_names. rewrite !in_map_iff.
  split; intros (f & Hf & Hin); exists f; (split; [exact Hf |]);
    rewrite filter_In in *; rewrite in_app_iff in *; tauto.
Qed.

(** In-place mode.  Given one directory only, as the archive directory
    or as the export directory, [Tarloader.__init__] does what it does
    when given that directory twice; an empty string counts as no
    directory.  The loader it builds has the directory on both sides,
    and although the directory is listed twice its sessions are those of
    one listing. *)
Theorem single_directory_is_both
    (d ext : string) (eeg spk use_disk : bool) (samples channels : Z) (w : World) :
  d <> EmptyString ->
  let args tar export :=
    {| arg_tar_directory := tar; arg_export_directory := export;
       arg_ext := ext; arg_eeg := eeg; arg_spk := spk;
       arg_samples := samples; arg_channels := channels;
       arg_use_disk := use_disk |} in
  Tarloader_init (args (Some d) None) w = Tarloader_init (args (Some d) (Some d)) w
  /\ Tarloader_init (args None (Some d)) w = Tarloader_init (args (Some d) (Some d)) w
  /\ Tarloader_init (args (Some EmptyString) (Some d)) w
     = Tarloader_init (args (Some d) (Some d)) w
  /\ (forall self w',
        Tarloader_init (args (Some d) None) w = (Ok self, w') ->
        tar_directory self = d /\ export_directory self = d /\
        exists l, listdir (disk w) d = Ok l /\
                  files self = Unique.unique_str (candidate_names ext l)).
Proof.
  intros Hd args.
  assert (Ht : truthy (Some d) = true).
  { simpl. apply negb_true_iff. now apply String.eqb_neq. }
  assert (Hboth : forall tar export,
             filled_tar tar export = d -> filled_export tar export = d ->
             truthy tar || truthy export = true ->
             Tarloader_init (args tar export) w
             = Tarloader_init (args (Some d) (Some d)) w).
  { intros tar export H1 H2 H3. rewrite !Tarloader_init_unfold. unfold args.
    cbn [arg_tar_directory arg_export_directory arg_eeg arg_ext arg_spk
    arg_samples arg_channels arg_use_disk].
    rewrite H3, Ht. cbn [orb]. rewrite H1, H2.
    unfold filled_tar, filled_export. rewrite Ht. reflexivity. }
  split; [| split; [| split]].
  - apply Hboth.
    + unfold filled_tar. now rewrite Ht.
    + unfold filled_export. change (truthy None) with false. cbv iota.
      now rewrite Ht.
    + now rewrite Ht.
  - apply Hboth.
    + reflexivity.
    + unfold filled_export. now rewrite Ht.
    + rewrite Ht. apply orb_true_r.
  - apply Hboth.
    + reflexivity.
    + unfold filled_export. now rewrite Ht.
    + rewrite Ht. apply orb_true_r.
  - intros self w' Hinit.
    destruct (Tarloader_init_files _ _ Hinit) as (l1 & l2 & H1 & H2 & Hext & Hfiles).
    rewrite Tarloader_init_unfold in Hinit. unfold args in Hinit.
    cbn [arg_tar_directory arg_export_directory arg_eeg arg_ext arg_spk
    arg_samples arg_channels arg_use_disk] in Hinit.
    rewrite Ht in Hinit. cbn [orb] in Hinit.
    destruct eeg; [discriminate |].
    assert (Hft : filled_tar (Some d) None = d) by (unfold filled_tar; now rewrite Ht).
    assert (Hfe : filled_export (Some d) None = d)
      by (unfold filled_export; change (truthy None) with false; cbv iota;
          now rewrite Ht).
    rewrite Hft, Hfe in Hinit. cbv zeta in Hinit.
    destruct (listdir (disk w) d) as [l |] eqn:Hl; [| discriminate].
    inversion Hinit; subst self w'; clear Hinit. cbn.
    split; [reflexivity |]. split; [reflexivity |].
    exists l. split; [reflexivity |].
    apply UniqueFacts.unique_ext;
      [exact UniqueFacts.str_cmp_eq | exact UniqueFacts.str_cmp_antisym
       | exact UniqueFacts.str_cmp_trans |].
    intros name. apply candidate_names_twice.
Qed.

(** One archive: the open is recorded, then the archive is read and
    decoded, then extracted. *)
Lemma extract_archive_run path dest w :
  extract_archive path dest w =
  match rbind (read_file (disk w) path) tar_open with
  | Raise e =>
      (Raise e, {| disk := disk w; calls := (calls w ++ [TarOpen path])%list |})
  | Ok archive =>
      (fst (extractall archive dest (disk w)),
       {| disk := snd (extractall archive dest (disk w));
          calls := ((calls w ++ [TarOpen path]) ++ [TarExtractAll path dest])%list |})
  end.
Proof.
  unfold extract_archive, bind, log, on_disk, lift. simpl.
  destruct (read_file (disk w) path) as [bytes |]; simpl; [| reflexivity].
  destruct (tar_open bytes) as [archive |]; simpl; [| reflexivity].
  destruct (extractall archive dest (disk w)); reflexivity.
Qed.

(** When the primary archive of a session that is not extracted yet
    cannot be read or decoded, [extract] raises that error after the one
    attempt to open it: the disk is as before and the spike archive is
    not opened. *)
Theorem missing_primary_archive_stops_extraction
    (self : Tarloader) (index : Z) (w : World)
    (name : string) (present : list string) (e : exn) :
  list_getitem (files self) index = Ok name ->
  listdir (disk w) (export_directory self) = Ok present ->
  ~ In name present ->
  rbind (read_file (disk w) (path_join (tar_directory self) (name ++ ext self)))
        tar_open = Raise e ->
  extract self index w
  = (Raise e,
     {| disk := disk w;
        calls := (calls w
                  ++ [TarOpen (path_join (tar_directory self) (name ++ ext self))])%list |}).
Proof.
  intros Hname Hlist Hnot Hopen.
  rewrite (extract_run _ _ _ Hname Hlist).
  destruct (existsb (String.eqb name) present) eqn:Ex.
  { elim Hnot. now apply existsb_eqb_in. }
  unfold bind at 1. rewrite extract_archive_run, Hopen. reflexivity.
Qed.

(** A partial extraction is kept and counts as done.  When the primary
    archive has been extracted and the spike archive cannot be read or
    decoded, [extract] raises with the files of the primary archive left
    on the disk; and if the session name is listed on that disk, the next
    call of [extract] returns at once, so the spike archive is not asked
    for again. *)
Theorem partial_extraction_is_kept
    (self : Tarloader) (index : Z) (w : World)
    (name : string) (present : list string) (archive : Archive) (e : exn) :
  let primary := path_join (tar_directory self) (name ++ ext self) in
  let spikes := path_join (tar_directory self) (name ++ "_spk" ++ ext self) in
  let d1 := snd (extractall archive (export_directory self) (disk w)) in
  let w1 :=
    {| disk := d1;
       calls := (((calls w ++ [TarOpen primary])
                  ++ [TarExtractAll primary (export_directory self)])
                 ++ [TarOpen spikes])%list |} in
  eeg self = false -> spk self = true ->
  list_getitem (files self) index = Ok name ->
  listdir (disk w) (export_directory self) = Ok present ->
  ~ In name present ->
  rbind (read_file (disk w) primary) tar_open = Ok archive ->
  fst (extractall archive (export_directory self) (disk w)) = Ok tt ->
  rbind (read_file d1 spikes) tar_open = Raise e ->
  extract self index w = (Raise e, w1)
  /\ (forall present1,
        listdir d1 (export_directory self) = Ok present1 ->
        In name present1 ->
        extract self index w1 = (Ok tt, w1)).
Proof.
  intros primary spikes d1 w1 Heeg Hspk Hname Hlist Hnot Hopen Hdone Hfail.
  split.
  - rewrite (extract_run _ _ _ Hname Hlist).
    destruct (existsb (String.eqb name) present) eqn:Ex.
    { elim Hnot. now apply existsb_eqb_in. }
    fold primary spikes. rewrite Heeg, Hspk.
    unfold bind at 1. rewrite extract_archive_run, Hopen, Hdone.
    unfold bind at 1. cbn [when ret].
    rewrite extract_archive_run. cbn [disk calls]. fold d1.
    rewrite Hfail. reflexivity.
  - intros present1 Hlist1 Hin.
    rewrite (@extract_run E self index w1 name present1 Hname Hlist1).
    apply existsb_eqb_in in Hin. now rewrite Hin.
Qed.

Lemma only_calls_ret {A} allowed (a : A) : only_calls allowed (ret a).
Proof. intros w. exists []. simpl. rewrite app_nil_r. split; [reflexivity | easy]. Qed.

Lemma only_calls_bind {A B} allowed (m : M A) (k : A -> M B) :
  only_calls allowed m -> (forall a, only_calls allowed (k a)) ->
  only_calls allowed (bind m k).
Proof.
  intros Hm Hk w. unfold bind. destruct (Hm w) as (more1 & H1 & I1).
  destruct (m w) as [[a | e] w0]; simpl in H1 |- *.
  - destruct (Hk a w0) as (more2 & H2 & I2).
    exists (more1 ++ more2)%list. rewrite H2, H1, app_assoc.
    split; [reflexivity | now apply incl_app].
  - now exists more1.
Qed.

Lemma only_calls_archive allowed path dest :
  In (TarOpen path) allowed -> In (TarExtractAll path dest) allowed ->
  only_calls allowed (extract_archive path dest).
Proof.
  intros Ho Hx w. rewrite extract_archive_run.
  destruct (rbind (read_file (disk w) path) tar_open); simpl.
  - exists [TarOpen path; TarExtractAll path dest].
    rewrite <- app_assoc. split; [reflexivity |].
    intros c [<- | [<- | []]]; assumption.
  - exists [TarOpen path]. split; [reflexivity |].
    intros c [<- | []]; assumption.
Qed.

(** A session index that [Tarloader.__init__] built never opens an eeg
    archive: all that [extract] can do for a session is to open and
    extract its primary archive and its spike archive. *)
Theorem built_loader_opens_two_archives
    (a : TarloaderArgs) (w0 w0' : World) (self : Tarloader)
    (index : Z) (w : World) :
  Tarloader_init a w0 = (Ok self, w0') ->
  eeg self = false /\
  exists more,
    calls (snd (extract self index w)) = (calls w ++ more)%list /\
    forall c, In c more ->
      exists name,
        list_getitem (files self) index = Ok name /\
        In c [TarOpen (path_join (tar_directory self) (name ++ ext self));
              TarExtractAll (path_join (tar_directory self) (name ++ ext self))
                            (export_directory self);
              TarOpen (path_join (tar_directory self) (name ++ "_spk" ++ ext self));
              TarExtractAll (path_join (tar_directory self) (name ++ "_spk" ++ ext self))
                            (export_directory self)].
Proof.
  intros Hinit.
  assert (Heeg : eeg self = false).
  { rewrite Tarloader_init_unfold in Hinit.
    destruct (_ || _); [| discriminate].
    destruct (arg_eeg a) eqn:Ha; [discriminate |]. cbv zeta in Hinit.
    destruct (listdir (disk w0) _); [| discriminate].
    destruct (listdir (disk w0) _); [| discriminate].
    inversion Hinit; subst self. reflexivity. }
  split; [exact Heeg |].
  destruct (list_getitem (files self) index) as [name | e] eqn:Hname.
  - set (allowed :=
           [TarOpen (path_join (tar_directory self) (name ++ ext self));
            TarExtractAll (path_join (tar_directory self) (name ++ ext self))
                          (export_directory self);
            TarOpen (path_join (tar_directory self) (name ++ "_spk" ++ ext self));
            TarExtractAll (path_join (tar_directory self) (name ++ "_spk" ++ ext self))
                          (export_directory self)]).
    assert (Hall : exists more,
               calls (snd (extract self index w)) = (calls w ++ more)%list
               /\ incl more allowed).
    { destruct (listdir (disk w) (export_directory self)) as [present | e] eqn:Hlist.
      - rewrite (extract_run _ _ _ Hname Hlist).
        destruct (existsb (String.eqb name) present).
        + exists []. simpl. rewrite app_nil_r. split; [reflexivity | easy].
        + rewrite Heeg.
          match goal with |- context [snd (?m w)] =>
            assert (Hm : only_calls allowed m) end.
          { apply only_calls_bind.
            { apply only_calls_archive; unfold allowed; simpl; auto. }
            intros _. apply only_calls_bind; [apply only_calls_ret |].
            intros _. destruct (spk self); [| apply only_calls_ret].
            apply only_calls_archive; unfold allowed; simpl; auto. }
          exact (Hm w).
      - exists []. unfold extract, bind, lift, on_disk. rewrite Hname, Hlist.
        simpl. rewrite app_nil_r. split; [reflexivity | easy]. }
    destruct Hall as (more & Hmore & Hincl).
    exists more. split; [exact Hmore |].
    intros c Hc. exists name. split; [reflexivity | exact (Hincl c Hc)].
  - exists []. split.
    + unfold extract, bind, lift. rewrite Hname. simpl. now rewrite app_nil_r.
    + intros c [].
Qed.

End ExtractionMore.

(** One directory of the demonstration disk, given once and twice. *)
Lemma single_directory_is_both_witness :
  Tarloader_init (default_args (Some "tars") None) Demo.world0
  = Tarloader_init (default_args (Some "tars") (Some "tars")) Demo.world0.
Proof.
  destruct (@single_directory_is_both "tars" ".tar.gz" false true true 32 (-1)
              Demo.world0) as [H _].
  - discriminate.
  - exact H.
Defined.

(** The spike archive alone: the primary archive is asked for and is not
    there. *)
Lemma missing_primary_archive_stops_extraction_witness :
  extract (E := Demo.demo) Demo.loader0 0 Demo.world_no_primary
  = (Raise (FileNotFoundError "tars/ratA_3.tar.gz"),
     {| disk := disk Demo.world_no_primary;
        calls := [TarOpen "tars/ratA_3.tar.gz"] |}).
Proof.
  apply (@missing_primary_archive_stops_extraction Demo.demo Demo.loader0 0
           Demo.world_no_primary "ratA_3" []).
  - reflexivity.
  - reflexivity.
  - intros [].
  - reflexivity.
Defined.

(** The primary archive alone: its files stay, and the next call does
    nothing. *)
Lemma partial_extraction_is_kept_witness :
  exists w1,
    extract (E := Demo.demo) Demo.loader0 0 Demo.world_no_spk
    = (Raise (FileNotFoundError "tars/ratA_3_spk.tar.gz"), w1)
    /\ listdir (disk w1) "out" = Ok ["ratA_3"]
    /\ extract (E := Demo.demo) Demo.loader0 0 w1 = (Ok tt, w1).
Proof.
  destruct (@partial_extraction_is_kept Demo.demo Demo.loader0 0 Demo.world_no_spk
              "ratA_3" []
              ["ratA_3/ratA_3_sessInfo.mat"; "ratA_3/ratA_3.clu.1"]
              (FileNotFoundError "tars/ratA_3_spk.tar.gz")
              eq_refl eq_refl eq_refl eq_refl (fun H => H) eq_refl eq_refl eq_refl)
    as [Hrun Hnext].
  eexists. split; [exact Hrun |]. split; [reflexivity |].
  apply (Hnext ["ratA_3"]); [reflexivity | now left].
Defined.

(** The session index of the demonstration disk. *)
Lemma built_loader_opens_two_archives_witness :
  eeg Demo.loader0 = false /\
  exists more,
    calls (snd (extract (E := Demo.demo) Demo.loader0 0 Demo.world0))
    = (calls Demo.world0 ++ more)%list /\
    forall c, In c more ->
      exists name,
        list_getitem (files Demo.loader0) 0 = Ok name /\
        In c [TarOpen (path_join (tar_directory Demo.loader0)
                                 (name ++ ext Demo.loader0));
              TarExtractAll (path_join (tar_directory Demo.loader0)
                                       (name ++ ext Demo.loader0))
                            (export_directory Demo.loader0);
              TarOpen (path_join (tar_directory Demo.loader0)
                                 (name ++ "_spk" ++ ext Demo.loader0));
              TarExtractAll (path_join (tar_directory Demo.loader0)
                                       (name ++ "_spk" ++ ext Demo.loader0))
                            (export_directory Demo.loader0)].
Proof.
  apply (@built_loader_opens_two_archives Demo.demo Demo.args0 Demo.world0 Demo.world0
           Demo.loader0 0 Demo.world0).
  reflexivity.
Defined.

(* ================================================================== *)
(** ** Further properties: the group index *)

Section GroupIndexMore.

Context {E : Externals}.

Lemma map_result_first_failure {A B} (g : A -> result B) good bad rest e :
  Forall (fun x => is_ok (g x) = true) good ->
  g bad = Raise e ->
  map_result g (good ++ bad :: rest)%list = Raise e.
Proof.
  intros Hgood Hbad. induction Hgood as [| x good Hx _ IH]; simpl.
  - now rewrite Hbad.
  - destruct (g x); [| discriminate]. simpl. now rewrite IH.
Qed.

(** A file name that the group pattern accepts and that has fewer than
    three fields between dots has no group number. *)
Lemma group_number_few_fields f :
  (List.length (split_on "." f) < 3)%nat ->
  group_number f = Raise (IndexError "list index out of range").
Proof.
  intros H. unfold group_number, list_getitem.
  destruct (split_on "." f) as [| a [| b [| c l]]]; simpl in *;
    try reflexivity; lia.
Qed.

(** One file name is enough to make the construction of a group index
    fail: when a listed name passes the group pattern and its third field
    cannot be read as an integer, or is missing, while the matching names
    before it can be read, [Dataloader.__init__] raises that error and
    builds nothing. *)
Theorem malformed_group_file_breaks_construction
    (directory : string) (novel : Metadata) (eeg spk : bool)
    (samples channels : Z) (use_disk : bool) (w : World)
    (files good rest : list string) (bad : string) (e : exn) :
  listdir (disk w) directory = Ok files ->
  filter (search group_re) files = (good ++ bad :: rest)%list ->
  Forall (fun f => is_ok (group_number f) = true) good ->
  group_number bad = Raise e ->
  Dataloader_init directory novel eeg spk samples channels use_disk w
  = (Raise e, w).
Proof.
  intros Hlist Hfilter Hgood Hbad.
  rewrite Dataloader_init_run, Hlist. simpl.
  unfold group_numbers. rewrite Hfilter.
  now rewrite (@map_result_first_failure _ _ group_number good bad rest e Hgood Hbad).
Qed.

(** *** Memoized files are not group files *)

Lemma lit_inv s u : matches (Lit s) u -> u = list_ascii_of_string s.
Proof.
  revert u. induction s as [| c s IH]; intros u H; simpl in *.
  - now apply PatternFacts.eps_inv.
  - apply ReFacts.cat_inv in H. destruct H as (a & b & -> & Ha & Hb).
    apply PatternFacts.class_inv in Ha. destruct Ha as (x & -> & Hx).
    apply Ascii.eqb_eq in Hx. subst x. simpl. now rewrite (IH _ Hb).
Qed.

(** A word of the group pattern holds one of the letters l, r, f, p. *)
Lemma group_re_kind_letter u :
  matches group_re u -> exists c, In c u /\ In c ["l"; "r"; "f"; "p"]%char.
Proof.
  unfold group_re. intros H.
  apply ReFacts.cat_inv in H. destruct H as (u1 & r1 & -> & _ & H).
  apply ReFacts.cat_inv in H. destruct H as (u2 & r2 & -> & _ & H).
  apply ReFacts.cat_inv in H. destruct H as (u3 & r3 & -> & _ & H).
  apply ReFacts.cat_inv in H. destruct H as (u4 & r4 & -> & _ & H).
  apply ReFacts.cat_inv in H. destruct H as (kind & r5 & -> & Hkind & _).
  assert (Hk : exists c, In c kind /\ In c ["l"; "r"; "f"; "p"]%char).
  { repeat (apply ReFacts.alt_inv in Hkind; destruct Hkind as [Hkind | Hkind]);
      apply lit_inv in Hkind; subst kind; simpl.
    - exists "l"%char. auto.
    - exists "r"%char. auto.
    - exists "f"%char. auto.
    - exists "p"%char. auto 6. }
  destruct Hk as (c & Hc & Hl). exists c. split; [| exact Hl].
  rewrite !in_app_iff. tauto.
Qed.

Lemma uint_chars d c :
  In c (list_ascii_of_string (NilEmpty.string_of_uint d)) -> is_digit c = true.
Proof.
  induction d as [| d IH | d IH | d IH | d IH | d IH | d IH | d IH | d IH | d IH | d IH];
    simpl; try tauto; intros [<- | H]; solve [reflexivity | now apply IH].
Qed.

Lemma nz_uint_chars d c :
  In c (list_ascii_of_string (NilZero.string_of_uint d)) -> is_digit c = true.
Proof.
  unfold NilZero.string_of_uint. destruct d; try apply uint_chars.
  simpl. intros [<- | []]. reflexivity.
Qed.

Lemma str_of_int_chars z c :
  In c (list_ascii_of_string (str_of_int z)) -> is_digit c = true \/ c = "-"%char.
Proof.
  unfold str_of_int, NilZero.string_of_int.
  destruct (Z.to_int z) as [d | d].
  - intros H. left. now apply (nz_uint_chars d).
  - cbn [list_ascii_of_string]. intros [<- | H]; [now right |].
    left. now apply (nz_uint_chars d).
Qed.

Lemma list_ascii_app a b :
  list_ascii_of_string (a ++ b) = (list_ascii_of_string a ++ list_ascii_of_string b)%list.
Proof. induction a as [| c a IH]; simpl; [reflexivity | now rewrite IH]. Qed.

(** The characters of [COMPILED_<n>.csv]. *)
Lemma compiled_name_chars index c :
  In c (list_ascii_of_string (compiled_name index)) ->
  In c (list_ascii_of_string "COMPILED_.csv") \/ is_digit c = true \/ c = "-"%char.
Proof.
  unfold compiled_name. rewrite !list_ascii_app, !in_app_iff.
  intros [H | [H | H]].
  - left. simpl in *. tauto.
  - right. now apply (str_of_int_chars (index + 1)).
  - left. simpl in *. tauto.
Qed.

Lemma compiled_name_not_group index : search group_re (compiled_name index) = false.
Proof.
  destruct (search group_re (compiled_name index)) eqn:Hs; [| reflexivity].
  exfalso. apply ReFacts.search_spec in Hs.
  destruct Hs as (p & u & v & Hchars & Hu).
  apply group_re_kind_letter in Hu. destruct Hu as (c & Hc & Hl).
  assert (Hin : In c (list_ascii_of_string (compiled_name index))).
  { rewrite Hchars, !in_app_iff. tauto. }
  apply compiled_name_chars in Hin.
  simpl in Hl, Hin.
  destruct Hl as [<- | [<- | [<- | [<- | []]]]]; intuition discriminate.
Qed.

Lemma has_char_in c s : has_char c s = true -> In c (list_ascii_of_string s).
Proof.
  induction s as [| a s IH]; simpl; [discriminate |].
  intros H. apply orb_true_iff in H. destruct H as [H | H].
  - left. now apply Ascii.eqb_eq in H.
  - right. now apply IH.
Qed.

Lemma compiled_name_entry index : entry_name (compiled_name index) = true.
Proof.
  unfold entry_name. apply andb_true_iff. split.
  - reflexivity.
  - apply negb_true_iff.
    destruct (has_char "/" (compiled_name index)) eqn:Hs; [| reflexivity].
    apply has_char_in, compiled_name_chars in Hs. simpl in Hs.
    intuition discriminate.
Qed.

Lemma map_fst_set_entry k v es : map fst (set_entry k v es) = map fst es.
Proof.
  induction es as [| [k' v'] t IH]; simpl; [reflexivity |].
  destruct (String.eqb k k'); simpl; [reflexivity | now rewrite IH].
Qed.

(** Writing a file changes the listing of its directory by at most the
    name of the file, at the end. *)
Lemma put_listing p data n :
  forall cs root root',
    put p (cs ++ [n])%list data root = Ok root' ->
    exists es es',
      walk cs root = Found (Dir es) /\ walk cs root' = Found (Dir es') /\
      (map fst es' = map fst es \/ map fst es' = (map fst es ++ [n])%list).
Proof.
  induction cs as [| c cs IH]; intros root root' H; simpl in H.
  - destruct root as [x | es]; [discriminate |].
    destruct (assoc n es) as [child |] eqn:Ha.
    + destruct child as [x | es0]; [| discriminate].
      simpl in H. inversion H; subst.
      exists es, (set_entry n (File data) es). simpl.
      split; [reflexivity |]. split; [reflexivity |].
      left. apply map_fst_set_entry.
    + inversion H; subst. exists es, (es ++ [(n, File data)])%list. simpl.
      split; [reflexivity |]. split; [reflexivity |].
      right. now rewrite map_app.
  - destruct root as [x | es]; [discriminate |].
    destruct (assoc c es) as [child |] eqn:Ha.
    + destruct (put p (cs ++ [n])%list data child) as [child' |] eqn:Hp;
        [| discriminate].
      simpl in H. inversion H; subst.
      destruct (IH _ _ Hp) as (es0 & es0' & H0 & H0' & Hnames).
      exists es0, es0'. simpl. rewrite Ha, (OsFacts.assoc_set_entry _ child' _ Ha).
      now repeat split.
    + destruct (cs ++ [n])%list eqn:Hcs; [| discriminate].
      now destruct cs.
Qed.

(** Memoized files never count as groups, and memoizing never changes
    the length of a group index: after any access to a group index, with
    any outcome, building a group index on its directory gives what it
    gave before the access. *)
Theorem memoizing_keeps_the_group_count
    (self : Dataloader) (index : Z) (w : World)
    (meta : Metadata) (eeg spk : bool) (samples channels : Z) (use_disk : bool) :
  search group_re (compiled_name index) = false
  /\ fst (Dataloader_init (directory self) meta eeg spk samples channels use_disk
            (snd (Dataloader_getitem self index w)))
     = fst (Dataloader_init (directory self) meta eeg spk samples channels use_disk w).
Proof.
  split; [apply compiled_name_not_group |].
  rewrite !Dataloader_init_run. cbn [fst].
  assert (Hsame : forall w', disk w' = disk w ->
            rbind (listdir (disk w') (directory self)) (fun files =>
              rbind (group_numbers files) (fun nums =>
                Ok {| directory := directory self; novel := meta; dl_eeg := eeg;
                      dl_spk := spk; dl_samples := samples; dl_channels := channels;
                      dl_use_disk := use_disk;
                      num_files := List.length (Unique.unique_int nums) |}))
            = rbind (listdir (disk w) (directory self)) (fun files =>
              rbind (group_numbers files) (fun nums =>
                Ok {| directory := directory self; novel := meta; dl_eeg := eeg;
                      dl_spk := spk; dl_samples := samples; dl_channels := channels;
                      dl_use_disk := use_disk;
                      num_files := List.length (Unique.unique_int nums) |}))).
  { intros w' ->. reflexivity. }
  destruct (dl_use_disk self) eqn:Hd.
  - destruct (isfile (disk w) (compiled_path self index)) eqn:Hf.
    + rewrite (Dataloader_getitem_cached _ _ _ Hd Hf). now apply Hsame.
    + rewrite (Dataloader_getitem_fresh _ _ _ Hd Hf).
      destruct (from_KK (disk w) (directory self) (kk_options self index)) as [data |];
        [| now apply Hsame].
      destruct (write_file (disk w) (compiled_path self index) (to_csv data))
        as [d' |] eqn:Hw; [| now apply Hsame].
      cbn [snd disk].
      unfold write_file in Hw.
      destruct (String.eqb (compiled_path self index) EmptyString); [discriminate |].
      unfold listdir, resolve.
      destruct (String.eqb (directory self) EmptyString); [reflexivity |].
      unfold compiled_path in Hw.
      rewrite OsFacts.components_join in Hw
        by (rewrite <- (OsFacts.append_empty_r (compiled_name index));
            apply OsFacts.entry_name_not_slash, compiled_name_entry).
      rewrite (OsFacts.components_entry _ (compiled_name_entry index)) in Hw.
      destruct (put_listing _ _ _ _ _ Hw) as (es & es' & Hes & Hes' & Hnames).
      rewrite Hes, Hes'. cbn [rbind].
      destruct Hnames as [-> | ->]; [reflexivity |].
      unfold group_numbers. rewrite filter_app. cbn [filter].
      rewrite compiled_name_not_group, app_nil_r. reflexivity.
  - rewrite (Dataloader_getitem_direct _ _ _ Hd). now apply Hsame.
Qed.

End GroupIndexMore.

(** The session directory with a name that has no dot. *)
Lemma malformed_group_file_breaks_construction_witness :
  Dataloader_init (E := Demo.demo) "s" "m" false true 32 (-1) true Demo.world_malformed
  = (Raise (IndexError "list index out of range"), Demo.world_malformed).
Proof.
  apply (@malformed_group_file_breaks_construction Demo.demo "s" "m" false true 32 (-1)
           true Demo.world_malformed ["a_1.clu.1"; "a_1xclux2"] ["a_1.clu.1"] []
           "a_1xclux2").
  - reflexivity.
  - reflexivity.
  - repeat constructor.
  - apply group_number_few_fields. simpl. lia.
Defined.
